(** * Recoil_State.js: tree states, store states and the version allocator

    A shallow embedding of [src/core/Recoil_State.js].  The module keeps one
    private counter ([nextTreeStateVersion]) and builds JavaScript objects;
    both are modelled explicitly: the counter as a JavaScript Number, the
    objects as cells of a heap addressed by references, so that object
    identity and sharing are visible in the statements. *)

From Stdlib Require Import ZArith List String Lia Bool.
From Stdlib Require Import Floats.SpecFloat.
From stdpp Require Import base numbers strings list option.

Local Open Scope Z_scope.

(** ** JavaScript Numbers holding integers

    A Number is an IEEE 754 binary64 value.  The counter of this module only
    ever holds integers, so a Number is represented by the integer it
    denotes, and the rounding that the 53 bit significand imposes is written
    out: every sum is rounded to the nearest representable value, ties to the
    even significand.  (Magnitudes of 2^1024 and more, where binary64 has
    only Infinity, are outside the represented range.) *)

Module Number.

Definition significand_bits : Z := 53.

(** The largest n such that every integer of magnitude up to n is a
    Number: 2^53 = 9007199254740992. *)
Definition max_exact : Z := 2 ^ significand_bits.

(** Round a non-negative integer to 53 significant bits, to nearest, ties
    to even. *)
Definition round_magnitude (z : Z) : Z :=
  let drop := Z.log2 z + 1 - significand_bits in
  if drop <=? 0 then z
  else
    let q := Z.shiftr z drop in
    let rest := Z.land z (Z.ones drop) in
    let half := Z.shiftl 1 (drop - 1) in
    let up := (half <? rest) || ((rest =? half) && Z.odd q) in
    Z.shiftl (if up then q + 1 else q) drop.

Definition round (z : Z) : Z := Z.sgn z * round_magnitude (Z.abs z).

(** [a + b] on Numbers. *)
Definition add (a b : Z) : Z := round (a + b).

(** The same integers as binary64 values of the Standard Library's
    specification of IEEE 754 arithmetic, to compare [add] with it. *)
Definition to_binary64 (z : Z) : spec_float :=
  binary_normalize 53 1024 z 0 false.

Definition binary64_add (x y : spec_float) : spec_float :=
  SFadd 53 1024 x y.

End Number.

(** ** Values and heap cells *)

(** References are heap addresses.  [Version] is a Number
    ([nextTreeStateVersion] is one); [NodeKey] and [ComponentID] come from
    Recoil_Keys and are used here only as types of keys. *)
Abbreviation loc := nat (only parsing).
Abbreviation Version := Z (only parsing).
Abbreviation NodeKey := string (only parsing).
Abbreviation ComponentID := Z (only parsing).

Inductive value : Type :=
  | VUndefined
  | VNull
  | VNumber (n : Z)
  | VString (s : string)
  | VRef (l : loc).

#[global] Instance value_eq_dec : EqDecision value.
Proof. solve_decision. Defined.

(** [TreeState]: the object literal of [makeEmptyTreeState].  The version is
    a Number; the other four fields hold references to objects. *)
Record TreeState : Type := mkTreeState {
  version : Version;
  transactionMetadata : loc;
  dirtyAtoms : loc;
  atomValues : loc;
  nonvalidatedAtoms : loc;
}.

(** [StoreState]: the object literal of [makeStoreState].  [nextTree] is
    [null | TreeState]. *)
Record StoreState : Type := mkStoreState {
  currentTree : loc;
  nextTree : option loc;
  knownAtoms : loc;
  knownSelectors : loc;
  transactionSubscriptions : loc;
  nodeTransactionSubscriptions : loc;
  queuedComponentCallbacks : loc;
  suspendedComponentResolvers : loc;
  nodeToComponentSubscriptions : loc;
  graphsByVersion : loc;
  versionsUsedByComponent : loc;
}.

(** What a reference can point to.  [Set] and [Map] keep insertion order, as
    in JavaScript.  [CGraph] is a dependency graph of Recoil_Graph, held as
    its edges; [CFunction] stands for a function object (a callback). *)
Inductive cell : Type :=
  | CObject (props : list (string * value))
  | CSet (elems : list value)
  | CMap (entries : list (value * value))
  | CArray (items : list value)
  | CGraph (edges : list (NodeKey * NodeKey))
  | CFunction (id : nat)
  | CTreeState (t : TreeState)
  | CStoreState (s : StoreState).

(** [Map.prototype.set]: replace the value of an existing key in place,
    otherwise append the entry. *)
Fixpoint map_set (k v : value) (entries : list (value * value))
  : list (value * value) :=
  match entries with
  | [] => [(k, v)]
  | (k', v') :: rest =>
      if decide (k' = k) then (k, v) :: rest else (k', v') :: map_set k v rest
  end.

(** ** The runtime: the module's private counter and the object heap *)

Record Runtime : Type := mkRuntime {
  nextTreeStateVersion : Z;
  heap : list cell;
}.

(** [let nextTreeStateVersion = 0;] at module load, nothing allocated yet. *)
Definition initial : Runtime :=
  {| nextTreeStateVersion := 0; heap := [] |}.

Inductive error : Type :=
  | TypeError
  | GraphNotFoundError
  | VersionOrderViolation.

(** A computation returns, or throws; in both cases the runtime is left as
    it was at that moment (an exception does not undo what was done before
    it). *)
Inductive outcome (A : Type) : Type :=
  | Ok (a : A) (r : Runtime)
  | Throw (e : error) (r : Runtime).
Arguments Ok {A} a r.
Arguments Throw {A} e r.

Definition after {A} (o : outcome A) : Runtime :=
  match o with
  | Ok _ r => r
  | Throw _ r => r
  end.

(** Computations that read and update the runtime and may throw. *)
Definition M (A : Type) : Type := Runtime -> outcome A.

Definition ret {A} (a : A) : M A := fun r => Ok a r.

Definition bind {A B} (m : M A) (k : A -> M B) : M B :=
  fun r => match m r with
           | Ok a r' => k a r'
           | Throw e r' => Throw e r'
           end.

Definition throw {A} (e : error) : M A := fun r => Throw e r.

Notation "'do' x <- m ; k" := (bind m (fun x => k))
  (at level 10, x name, m at level 100, k at level 200,
   format "'[v' 'do'  x  <-  m ; '/' k ']'").

(** A fresh object: the next free reference. *)
Definition alloc (c : cell) : M loc :=
  fun r => Ok (length (heap r))
              {| nextTreeStateVersion := nextTreeStateVersion r;
                 heap := heap r ++ [c] |}.

Definition read (l : loc) : M cell :=
  fun r => match heap r !! l with
           | Some c => Ok c r
           | None => Throw TypeError r
           end.

Definition readTreeState (l : loc) : M TreeState :=
  do c <- read l;
  match c with
  | CTreeState t => ret t
  | _ => throw TypeError
  end.

Definition readStoreState (l : loc) : M StoreState :=
  do c <- read l;
  match c with
  | CStoreState s => ret s
  | _ => throw TypeError
  end.

Definition readMap (l : loc) : M (list (value * value)) :=
  do c <- read l;
  match c with
  | CMap entries => ret entries
  | _ => throw TypeError
  end.

(** Overwrite the object at an existing reference. *)
Definition write (l : loc) (c : cell) : M unit :=
  fun r => Ok tt {| nextTreeStateVersion := nextTreeStateVersion r;
                    heap := <[l := c]> (heap r) |}.

(** [m.set(k, v)] on the Map object at [m]; the call evaluates to the map
    itself. *)
Definition mapSet (m : loc) (k v : value) : M loc :=
  do entries <- readMap m;
  do _ <- write m (CMap (map_set k v entries));
  ret m.

(** [object[name]] on an object literal: the value of the property, if the
    object has it. *)
Fixpoint object_get (name : string) (props : list (string * value))
  : option value :=
  match props with
  | [] => None
  | (n, v) :: rest => if decide (n = name) then Some v else object_get name rest
  end.

(** What [o.version] evaluates to, by the kind of object [o]: the version
    of a tree state; the property of that name of an object literal, if it
    has one; [undefined] for every other object. *)
Definition versionProperty (c : cell) : value :=
  match c with
  | CTreeState t => VNumber (version t)
  | CObject props => default VUndefined (object_get "version" props)
  | _ => VUndefined
  end.

(** The object that an argument denotes when the call is made; none when
    the argument is not (a reference to) an object, that is [null] or
    [undefined]. *)
Definition argument (l : loc) : M (option cell) :=
  fun r => Ok (heap r !! l) r.

(** [o.version], for the argument [l] resolved to [o]: a TypeError when the
    argument is [null] or [undefined], otherwise the property as the object
    has it at that moment. *)
Definition getVersion (o : option cell) (l : loc) : M value :=
  match o with
  | None => throw TypeError
  | Some _ => do c <- read l; ret (versionProperty c)
  end.

(** ** The functions of Recoil_State.js *)

(** [const getNextTreeStateVersion = () => nextTreeStateVersion++;]
    The postfix increment returns the old value and stores old + 1, a Number
    addition. *)
Definition getNextTreeStateVersion : M Version :=
  fun r =>
    let old := nextTreeStateVersion r in
    Ok old {| nextTreeStateVersion := Number.add old 1; heap := heap r |}.

(** [makeEmptyTreeState]: the properties are evaluated in source order, then
    the object is created. *)
Definition makeEmptyTreeState : M loc :=
  do v <- getNextTreeStateVersion;
  do md <- alloc (CObject []);
  do da <- alloc (CSet []);
  do av <- alloc (CMap []);
  do nv <- alloc (CMap []);
  alloc (CTreeState {| version := v;
                       transactionMetadata := md;
                       dirtyAtoms := da;
                       atomValues := av;
                       nonvalidatedAtoms := nv |}).

(** Modelled from the spec: [graph()] of Recoil_Graph, which is required by
    this module but is not among the sources.  The spec gives
    [emptyGraph() -> Graph] and describes a graph as directed edges between
    node keys, from a dependency to each of its dependents; the empty graph
    has no edge. *)
Definition graph : M loc := alloc (CGraph []).

(** [makeStoreState(treeState)].  The parameter is annotated [TreeState],
    but nothing checks it at run time: the function reads the [version]
    property of whatever object it is given. *)
Definition makeStoreState (treeState : loc) : M loc :=
  do o <- argument treeState;
  do ka <- alloc (CSet []);
  do ks <- alloc (CSet []);
  do ts <- alloc (CMap []);
  do nts <- alloc (CMap []);
  do qcc <- alloc (CArray []);
  do scr <- alloc (CSet []);
  do ntcs <- alloc (CMap []);
  do gbv <- alloc (CMap []);
  do key <- getVersion o treeState;
  do g <- graph;
  do gbv <- mapSet gbv key (VRef g);
  do vubc <- alloc (CMap []);
  alloc (CStoreState {| currentTree := treeState;
                        nextTree := None;
                        knownAtoms := ka;
                        knownSelectors := ks;
                        transactionSubscriptions := ts;
                        nodeTransactionSubscriptions := nts;
                        queuedComponentCallbacks := qcc;
                        suspendedComponentResolvers := scr;
                        nodeToComponentSubscriptions := ntcs;
                        graphsByVersion := gbv;
                        versionsUsedByComponent := vubc |}).

(** [makeEmptyStoreState]. *)
Definition makeEmptyStoreState : M loc :=
  do t <- makeEmptyTreeState;
  makeStoreState t.

(** ** Call sequences

    What a client of the module can do with it: call its four exports, in any
    order.  The counter is private to the module, so only these calls reach
    it. *)

Inductive call : Type :=
  | GetNextTreeStateVersion
  | MakeEmptyTreeState
  | MakeStoreState (treeState : loc)
  | MakeEmptyStoreState.

Inductive answer : Type :=
  | AVersion (v : Version)
  | ARef (l : loc).

Definition perform (c : call) : M answer :=
  match c with
  | GetNextTreeStateVersion => do v <- getNextTreeStateVersion; ret (AVersion v)
  | MakeEmptyTreeState => do t <- makeEmptyTreeState; ret (ARef t)
  | MakeStoreState t => do s <- makeStoreState t; ret (ARef s)
  | MakeEmptyStoreState => do s <- makeEmptyStoreState; ret (ARef s)
  end.

(** Reading fields through references, as a client does. *)
Definition treeStateAt (r : Runtime) (l : loc) : option TreeState :=
  match heap r !! l with
  | Some (CTreeState t) => Some t
  | _ => None
  end.

Definition storeStateAt (r : Runtime) (l : loc) : option StoreState :=
  match heap r !! l with
  | Some (CStoreState s) => Some s
  | _ => None
  end.

Definition versionAt (r : Runtime) (l : loc) : option Version :=
  version <$> treeStateAt r l.

(** [storeState.currentTree.version], read through the reference of a store
    state. *)
Definition currentVersionAt (r : Runtime) (s : loc) : option Version :=
  match storeStateAt r s with
  | Some st => versionAt r (currentTree st)
  | None => None
  end.

(** The version that a call obtained from the allocator, as its caller sees
    it: the returned number, the version of the returned tree state, or the
    version of the current tree of the returned store state. *)
Definition issued (c : call) (o : outcome answer) : option Version :=
  match c, o with
  | GetNextTreeStateVersion, Ok (AVersion v) _ => Some v
  | MakeEmptyTreeState, Ok (ARef t) r' => versionAt r' t
  | MakeEmptyStoreState, Ok (ARef s) r' => currentVersionAt r' s
  | _, _ => None
  end.

Definition answered {A} (o : outcome A) : option A :=
  match o with
  | Ok a _ => Some a
  | Throw _ _ => None
  end.

(** What a call sequence leaves behind for each call: the call, what it
    returned (nothing if it threw) and the version it was issued. *)
Record event : Type := mkEvent {
  ev_call : call;
  ev_answer : option answer;
  ev_version : option Version;
}.

Fixpoint run (cs : list call) (r : Runtime) : list event * Runtime :=
  match cs with
  | [] => ([], r)
  | c :: cs' =>
      let o := perform c r in
      let '(events, r') := run cs' (after o) in
      ({| ev_call := c; ev_answer := answered o; ev_version := issued c o |}
         :: events, r')
  end.

(** The versions handed out along a call sequence, in order. *)
Definition versions (cs : list call) (r : Runtime) : list Version :=
  omap ev_version (fst (run cs r)).

(** Calls that go through the allocator. *)
Definition allocates (c : call) : bool :=
  match c with
  | MakeStoreState _ => false
  | _ => true
  end.

(** Number of calls of a sequence that go through the allocator. *)
Fixpoint allocations (cs : list call) : nat :=
  match cs with
  | [] => 0
  | c :: cs' => (if allocates c then 1 else 0) + allocations cs'
  end.

(** The counter after [k] more allocations, starting from [c]. *)
Definition counter_after (c : Z) (k : nat) : Z :=
  Z.min (c + Z.of_nat k) Number.max_exact.

(** [extends r r']: every object of [r] is in [r'], at the same reference
    and with the same contents. *)
Definition extends (r r' : Runtime) : Prop := heap r `prefix_of` heap r'.

(** The tree state that a call of a sequence produced: the one returned by
    [makeEmptyTreeState], or the one that [makeEmptyStoreState] obtained from
    it and installed as current tree. *)
Definition producedTree (r : Runtime) (e : event) : option loc :=
  match ev_call e, ev_answer e with
  | MakeEmptyTreeState, Some (ARef t) => Some t
  | MakeEmptyStoreState, Some (ARef s) => currentTree <$> storeStateAt r s
  | _, _ => None
  end.

(** A read of a tree state: the contents of the objects behind
    [dirtyAtoms], [atomValues] and [nonvalidatedAtoms]. *)
Definition readAtoms (r : Runtime) (t : loc) : option (cell * cell * cell) :=
  match treeStateAt r t with
  | Some ts =>
      match heap r !! dirtyAtoms ts, heap r !! atomValues ts,
            heap r !! nonvalidatedAtoms ts with
      | Some da, Some av, Some nv => Some (da, av, nv)
      | _, _, _ => None
      end
  | None => None
  end.

(** The composition that the spec names for [makeEmptyStoreState]:
    [makeStoreState] applied to the result of [makeEmptyTreeState], the
    second evaluated in the runtime that the first leaves. *)
Definition makeStoreState_after_makeEmptyTreeState : M loc :=
  fun r =>
    match makeEmptyTreeState r with
    | Ok t r1 => makeStoreState t r1
    | Throw e r1 => Throw e r1
    end.

(** ** The store facade

    Recoil_State.js declares the type [Store] (getState, replaceState,
    getGraph, subscribeToTransactions, addTransactionMetadata,
    fireNodeSubscriptions), but the functions behind it are defined
    elsewhere in the repository and are not among the sources.  They are
    modelled here from section 4.5 of the spec, on the same runtime as the
    constructors above.  Callbacks are values; invoking them is the
    business of their owners, so an operation that fires callbacks returns
    them. *)

Fixpoint map_get (k : value) (entries : list (value * value)) : option value :=
  match entries with
  | [] => None
  | (k', v) :: rest => if decide (k' = k) then Some v else map_get k rest
  end.

Fixpoint map_delete (k : value) (entries : list (value * value))
  : list (value * value) :=
  match entries with
  | [] => []
  | (k', v) :: rest =>
      if decide (k' = k) then rest else (k', v) :: map_delete k rest
  end.

Fixpoint remove_first (x : value) (items : list value) : list value :=
  match items with
  | [] => []
  | y :: rest => if decide (y = x) then rest else y :: remove_first x rest
  end.

(** [{...object, ...fields}]: the properties of [fields] win. *)
Fixpoint object_merge (object fields : list (string * value))
  : list (string * value) :=
  match fields with
  | [] => object
  | (name, v) :: rest =>
      object_merge
        (if decide (name ∈ object.*1)
         then (fun '(n, w) => if decide (n = name) then (n, v) else (n, w)) <$> object
         else object ++ [(name, v)])
        rest
  end.

(** Keep the first entry of each key. *)
Fixpoint dedupe (seen : list value) (entries : list (value * value))
  : list (value * value) :=
  match entries with
  | [] => []
  | (k, v) :: rest =>
      if decide (k ∈ seen) then dedupe seen rest
      else (k, v) :: dedupe (k :: seen) rest
  end.

Definition readSet (l : loc) : M (list value) :=
  do c <- read l;
  match c with
  | CSet elems => ret elems
  | _ => throw TypeError
  end.

Definition readArray (l : loc) : M (list value) :=
  do c <- read l;
  match c with
  | CArray items => ret items
  | _ => throw TypeError
  end.

Definition readObject (l : loc) : M (list (string * value)) :=
  do c <- read l;
  match c with
  | CObject props => ret props
  | _ => throw TypeError
  end.

Definition readGraph (l : loc) : M (list (NodeKey * NodeKey)) :=
  do c <- read l;
  match c with
  | CGraph edges => ret edges
  | _ => throw TypeError
  end.

(** Replace the entries of the Map object at [m]. *)
Definition mapUpdate (m : loc)
  (f : list (value * value) -> list (value * value)) : M unit :=
  do entries <- readMap m;
  write m (CMap (f entries)).

(** Replace the items of the Array object at [a]. *)
Definition arrayUpdate (a : loc) (f : list value -> list value) : M unit :=
  do items <- readArray a;
  write a (CArray (f items)).

Fixpoint mapM {A B} (f : A -> M B) (l : list A) : M (list B) :=
  match l with
  | [] => ret []
  | x :: rest => do y <- f x; do ys <- mapM f rest; ret (y :: ys)
  end.

Definition setVersion (v : Version) (t : TreeState) : TreeState :=
  {| version := v;
     transactionMetadata := transactionMetadata t;
     dirtyAtoms := dirtyAtoms t;
     atomValues := atomValues t;
     nonvalidatedAtoms := nonvalidatedAtoms t |}.

Definition setTransactionMetadata (m : loc) (t : TreeState) : TreeState :=
  {| version := version t;
     transactionMetadata := m;
     dirtyAtoms := dirtyAtoms t;
     atomValues := atomValues t;
     nonvalidatedAtoms := nonvalidatedAtoms t |}.

(** [storeState.currentTree = c; storeState.nextTree = n]. *)
Definition setTrees (c : loc) (n : option loc) (st : StoreState) : StoreState :=
  {| currentTree := c;
     nextTree := n;
     knownAtoms := knownAtoms st;
     knownSelectors := knownSelectors st;
     transactionSubscriptions := transactionSubscriptions st;
     nodeTransactionSubscriptions := nodeTransactionSubscriptions st;
     queuedComponentCallbacks := queuedComponentCallbacks st;
     suspendedComponentResolvers := suspendedComponentResolvers st;
     nodeToComponentSubscriptions := nodeToComponentSubscriptions st;
     graphsByVersion := graphsByVersion st;
     versionsUsedByComponent := versionsUsedByComponent st |}.

(** The latest snapshot of a store: the pending tree if there is one. *)
Definition latestTree (st : StoreState) : loc :=
  match nextTree st with
  | Some n => n
  | None => currentTree st
  end.

Module Store.

(** Modelled from the spec: the second argument of
    [fireNodeSubscriptions], ['enqueue' | 'now']. *)
Inductive when : Type := Enqueue | Now.

(** Modelled from the spec: the capability returned by
    [subscribeToTransactions], which names the registration that its
    [release] removes: a global one by its handle, a scoped one by its
    node and callback. *)
Inductive capability : Type :=
  | Global (handle : Z)
  | Scoped (node : NodeKey) (callback : value).

Section Facade.

(** Modelled from the spec: the incremental maintenance of section 4.3,
    which derives the graph of a new version from the graph of the
    preceding one and the atoms written.  Which edges it re-derives
    depends on the selectors, which the spec keeps outside this core; it
    is a parameter. *)
Variable deriveGraph :
  list (NodeKey * NodeKey) -> list value -> list (NodeKey * NodeKey).

(** Modelled from the spec: whether a component still reads the version
    recorded for it, which the rendering framework knows; [commit]
    prunes [versionsUsedByComponent] of "versions no longer read". *)
Variable stillRead : value -> value -> bool.

(** Modelled from the spec: [getState() -> StoreState] "returns the
    live, mutable state container (not a copy)". *)
Definition getState (store : loc) : M loc :=
  do _ <- readStoreState store;
  ret store.

(** Modelled from the spec: [getGraph(version) -> Graph] returns the
    graph registered for that version, "creating none implicitly";
    absence fails with GraphNotFoundError. *)
Definition getGraph (store : loc) (v : Version) : M loc :=
  do st <- readStoreState store;
  do graphs <- readMap (graphsByVersion st);
  match map_get (VNumber v) graphs with
  | Some (VRef g) => ret g
  | _ => throw GraphNotFoundError
  end.

(** Modelled from the spec: [replaceState(update)] "applies update to
    the current tree to obtain a candidate tree; the candidate's version
    must be a freshly allocated version strictly greater than
    currentTree.version; installs it as nextTree if none is pending,
    otherwise composes with the pending nextTree".  The transform is
    applied to the latest snapshot (a re-entrant transaction chains off
    [nextTree]); a violation of the version ordering is fatal and is
    surfaced by the call that detects it (section 7); the graph of the
    new version is derived from the graph of the version it comes from
    (section 2, control flow). *)
Definition replaceState (store : loc) (update : TreeState -> TreeState)
  : M unit :=
  do st <- readStoreState store;
  do cur <- readTreeState (currentTree st);
  do base <- readTreeState (latestTree st);
  do v <- getNextTreeStateVersion;
  if version cur <? v then
    let candidate := setVersion v (update base) in
    do g <- getGraph store (version base);
    do edges <- readGraph g;
    do dirty <- readSet (dirtyAtoms candidate);
    do g' <- alloc (CGraph (deriveGraph edges dirty));
    do _ <- mapSet (graphsByVersion st) (VNumber v) (VRef g');
    do n <- alloc (CTreeState candidate);
    write store (CStoreState (setTrees (currentTree st) (Some n) st))
  else throw VersionOrderViolation.

(** Modelled from the spec: the transition Pending -> Committed of the
    transaction state machine: "nextTree promoted to currentTree,
    subscriptions fired, queue flushed, versionsUsedByComponent pruned of
    versions no longer read".  Returns the callbacks that are fired:
    the transaction subscriptions, then the flushed queue.  Without a
    pending tree there is nothing to commit. *)
Definition commit (store : loc) : M (list value) :=
  do st <- readStoreState store;
  match nextTree st with
  | None => ret []
  | Some n =>
      do _ <- write store (CStoreState (setTrees n None st));
      do subscriptions <- readMap (transactionSubscriptions st);
      do queued <- readArray (queuedComponentCallbacks st);
      do _ <- arrayUpdate (queuedComponentCallbacks st) (fun _ => []);
      do _ <- mapUpdate (versionsUsedByComponent st)
                (List.filter (fun '(c, v) => stillRead c v));
      ret (subscriptions.*2 ++ queued)
  end.

(** Modelled from the spec: [subscribeToTransactions(callback,
    nodeKey?)] "registers callback either globally (no nodeKey) or scoped
    to a single node" and returns the capability to release it.
    [transactionSubscriptions] is keyed by a subscription handle, which
    the identity allocator of section 2 issues; it is an argument. *)
Definition subscribeToTransactions
  (store : loc) (handle : Z) (callback : value) (node : option NodeKey)
  : M capability :=
  do st <- readStoreState store;
  match node with
  | None =>
      do _ <- mapSet (transactionSubscriptions st) (VNumber handle) callback;
      ret (Global handle)
  | Some key =>
      do subscriptions <- readMap (nodeTransactionSubscriptions st);
      match map_get (VString key) subscriptions with
      | Some (VRef callbacks) =>
          do _ <- arrayUpdate callbacks (fun items => items ++ [callback]);
          ret (Scoped key callback)
      | _ =>
          do callbacks <- alloc (CArray [callback]);
          do _ <- mapSet (nodeTransactionSubscriptions st)
                    (VString key) (VRef callbacks);
          ret (Scoped key callback)
      end
  end.

(** Modelled from the spec: [release()] of a capability "is idempotent
    and removes the registration". *)
Definition release (store : loc) (c : capability) : M unit :=
  do st <- readStoreState store;
  match c with
  | Global handle =>
      mapUpdate (transactionSubscriptions st) (map_delete (VNumber handle))
  | Scoped key callback =>
      do subscriptions <- readMap (nodeTransactionSubscriptions st);
      match map_get (VString key) subscriptions with
      | Some (VRef callbacks) => arrayUpdate callbacks (remove_first callback)
      | _ => ret tt
      end
  end.

(** Modelled from the spec: [addTransactionMetadata(fields)] "merges
    fields into the metadata of the in-flight (or about-to-start)
    transaction".  A tree state is never changed in place ("any change
    produces a new Tree State with a new version"), so the merged
    metadata goes into a new pending tree. *)
Definition addTransactionMetadata
  (store : loc) (fields : list (string * value)) : M unit :=
  do st <- readStoreState store;
  do base <- readTreeState (latestTree st);
  do metadata <- readObject (transactionMetadata base);
  do merged <- alloc (CObject (object_merge metadata fields));
  replaceState store (setTransactionMetadata merged).

(** Modelled from the spec: the components subscribed to a node,
    each with its notify callback ([nodeToComponentSubscriptions]: "for
    each node, the set of components depending on it together with a
    per-component notify callback and a debug label"). *)
Definition subscribers (store : loc) (node : value)
  : M (list (value * value)) :=
  do st <- readStoreState store;
  do byNode <- readMap (nodeToComponentSubscriptions st);
  match map_get node byNode with
  | Some (VRef components) =>
      do entries <- readMap components;
      mapM (fun '(component, subscription) =>
              match subscription with
              | VRef entry =>
                  do items <- readArray entry;
                  match items with
                  | [_; callback] => ret (component, callback)
                  | _ => throw TypeError
                  end
              | _ => throw TypeError
              end)
           entries
  | _ => ret []
  end.

(** Modelled from the spec: [fireNodeSubscriptions(updatedNodes, when)]:
    for ['now'], invokes every component callback subscribed to a node of
    [updatedNodes], "deduplicated per component"; for ['enqueue'],
    appends that deduplicated list to [queuedComponentCallbacks].
    Returns the callbacks invoked now. *)
Definition fireNodeSubscriptions
  (store : loc) (updatedNodes : list value) (w : when) : M (list value) :=
  do st <- readStoreState store;
  do found <- mapM (subscribers store) updatedNodes;
  let callbacks := (dedupe [] (concat found)).*2 in
  match w with
  | Now => ret callbacks
  | Enqueue =>
      do _ <- arrayUpdate (queuedComponentCallbacks st)
                (fun items => items ++ callbacks);
      ret []
  end.

(** Modelled from the spec: the operations of the store protocol, as
    one type, and their execution on the store at [store]. *)
Inductive operation : Type :=
  | GetState
  | GetGraph (v : Version)
  | ReplaceState (update : TreeState -> TreeState)
  | Commit
  | SubscribeToTransactions (handle : Z) (callback : value)
                            (node : option NodeKey)
  | Release (c : capability)
  | AddTransactionMetadata (fields : list (string * value))
  | FireNodeSubscriptions (updatedNodes : list value) (w : when).

(** Modelled from the spec: running one operation of the protocol, for
    its effect on the runtime. *)
Definition exec (store : loc) (op : operation) : M unit :=
  match op with
  | GetState => do _ <- getState store; ret tt
  | GetGraph v => do _ <- getGraph store v; ret tt
  | ReplaceState update => replaceState store update
  | Commit => do _ <- commit store; ret tt
  | SubscribeToTransactions handle callback node =>
      do _ <- subscribeToTransactions store handle callback node; ret tt
  | Release c => release store c
  | AddTransactionMetadata fields => addTransactionMetadata store fields
  | FireNodeSubscriptions updatedNodes w =>
      do _ <- fireNodeSubscriptions store updatedNodes w; ret tt
  end.

(** Modelled from the spec: the runtimes in which the store at [store]
    can be found: it was made by one of the two constructors
    ([makeStoreState] from a tree state, as its contract has it), and since
    then the exports of Recoil_State.js were called and operations of
    the protocol were run, on this store or on another. *)
Inductive reachable (store : loc) : Runtime -> Prop :=
  | reach_makeStoreState (r r' : Runtime) (t : loc) (ts : TreeState) :
      treeStateAt r t = Some ts ->
      makeStoreState t r = Ok store r' -> reachable store r'
  | reach_makeEmptyStoreState (r r' : Runtime) :
      makeEmptyStoreState r = Ok store r' -> reachable store r'
  | reach_call (r : Runtime) (c : call) :
      reachable store r -> reachable store (after (perform c r))
  | reach_operation (r : Runtime) (other : loc) (op : operation) :
      reachable store r -> reachable store (after (exec other op r)).

End Facade.

End Store.

(** The invariant of a store state: its current tree is a tree state, and a
    pending tree, when there is one, is a tree state of a strictly greater
    version. *)
Definition nextTreeNewer (r : Runtime) (store : loc) : Prop :=
  exists (st : StoreState) (cur : TreeState),
    storeStateAt r store = Some st /\
    treeStateAt r (currentTree st) = Some cur /\
    match nextTree st with
    | None => True
    | Some n =>
        exists nt : TreeState,
          treeStateAt r n = Some nt /\ version cur < version nt
    end.

(** ** Assertions about computations *)

(** [quiet r r']: every tree state and every store state of [r] is in [r']
    unchanged.  (Other objects may have changed, and the counter too.) *)
Definition quiet (r r' : Runtime) : Prop :=
  (forall (l : loc) (t : TreeState),
     treeStateAt r l = Some t -> treeStateAt r' l = Some t) /\
  (forall (l : loc) (s : StoreState),
     storeStateAt r l = Some s -> storeStateAt r' l = Some s).

(** A computation that is quiet however it ends. *)
Definition Quiet {A} (m : M A) : Prop :=
  forall r : Runtime, quiet r (after (m r)).

(** Assertions that quiet steps cannot falsify. *)
Definition stable (P : Runtime -> Prop) : Prop :=
  forall r r' : Runtime, quiet r r' -> P r -> P r'.

(** [triple P m Q E]: from a runtime satisfying [P], [m] returns [a] in a
    runtime satisfying [Q a], or throws in a runtime satisfying [E]. *)
Definition triple {A} (P : Runtime -> Prop) (m : M A)
  (Q : A -> Runtime -> Prop) (E : Runtime -> Prop) : Prop :=
  forall r : Runtime,
    P r ->
    match m r with
    | Ok a r' => Q a r'
    | Throw _ r' => E r'
    end.

(** Objects that are neither tree states nor store states. *)
Definition plain (c : cell) : Prop :=
  match c with
  | CTreeState _ | CStoreState _ => False
  | _ => True
  end.

(** ** The objects behind a tree state and a store state *)

(** The objects that [makeEmptyTreeState] creates for the tree state at
    [t]: the tree state itself and the objects of its four fields. *)
Definition treeObjects (r : Runtime) (t : loc) : list loc :=
  match treeStateAt r t with
  | Some ts =>
      [t; transactionMetadata ts; dirtyAtoms ts; atomValues ts;
       nonvalidatedAtoms ts]
  | None => []
  end.

(** The objects that the values of a Map refer to. *)
Definition mapReferences (entries : list (value * value)) : list loc :=
  omap (fun '(_, v) => match v with VRef l => Some l | _ => None end) entries.

(** The objects that [makeStoreState] creates for the store state at [s]:
    the store state itself, the objects of its fields other than
    [currentTree] and [nextTree], and the graphs that its [graphsByVersion]
    holds. *)
Definition storeObjects (r : Runtime) (s : loc) : list loc :=
  match storeStateAt r s with
  | Some st =>
      [s; knownAtoms st; knownSelectors st; transactionSubscriptions st;
       nodeTransactionSubscriptions st; queuedComponentCallbacks st;
       suspendedComponentResolvers st; nodeToComponentSubscriptions st;
       graphsByVersion st; versionsUsedByComponent st]
      ++ match heap r !! graphsByVersion st with
         | Some (CMap entries) => mapReferences entries
         | _ => []
         end
  | None => []
  end.

(** The store state that a call of a sequence returned. *)
Definition producedStore (e : event) : option loc :=
  match ev_call e, ev_answer e with
  | MakeStoreState _, Some (ARef s) => Some s
  | MakeEmptyStoreState, Some (ARef s) => Some s
  | _, _ => None
  end.

(** Everything that a call of a sequence created and handed to its caller:
    the objects of the tree state it produced and those of the store state
    it returned, as the runtime [r] has them. *)
Definition created (r : Runtime) (e : event) : list loc :=
  match producedTree r e with
  | Some t => treeObjects r t
  | None => []
  end
  ++ match producedStore e with
     | Some s => storeObjects r s
     | None => []
     end.

(** ** Reading a binary64 value as an integer *)

(** The integer that a binary64 value denotes, when it denotes one: the
    significand times two to the exponent, with its sign; nothing for a
    fraction, an infinity or NaN. *)
Definition binary64_integer (x : spec_float) : option Z :=
  match x with
  | S754_zero _ => Some 0
  | S754_finite negative m e =>
      let magnitude :=
        if 0 <=? e then Some (Zpos m * 2 ^ e)
        else if Zpos m mod 2 ^ (- e) =? 0 then Some (Zpos m / 2 ^ (- e))
        else None in
      (fun z => if negative then - z else z) <$> magnitude
  | _ => None
  end.

(** * Properties *)

(** ** Numbers *)

Lemma Number_add_exact (n : Z) :
  0 <= n < Number.max_exact -> Number.add n 1 = n + 1.
Proof.
  intros [Hlo Hhi]. unfold Number.max_exact, Number.significand_bits in Hhi.
  unfold Number.add, Number.round.
  rewrite Z.sgn_pos, Z.abs_eq, Z.mul_1_l by lia.
  destruct (Z.eq_dec (n + 1) (2 ^ 53)) as [-> | Hne]; [reflexivity |].
  unfold Number.round_magnitude, Number.significand_bits.
  assert (Z.log2 (n + 1) < 53) by (apply Z.log2_lt_pow2; lia).
  destruct (Z.leb_spec (Z.log2 (n + 1) + 1 - 53) 0); [reflexivity | lia].
Qed.

Lemma Number_add_stuck : Number.add Number.max_exact 1 = Number.max_exact.
Proof. reflexivity. Qed.

(** *** The integer model and IEEE 754

    [Number.add n 1] is what binary64 addition gives, for every value that
    the counter can hold: the sum is exact below 2^53, and at 2^53 it rounds
    back to 2^53. *)

Lemma digits2_pos_size (p : positive) : digits2_pos p = Pos.size p.
Proof. induction p; simpl; congruence. Qed.

Lemma iter_xO_mul (m d : positive) :
  Pos.iter xO m d = (m * 2 ^ d)%positive.
Proof.
  revert m. induction d using Pos.peano_ind; intros m.
  - simpl. lia.
  - rewrite Pos.iter_succ, IHd, Pos.pow_succ_r. lia.
Qed.

Lemma size_iter_xO (m d : positive) :
  Pos.size (Pos.iter xO m d) = (Pos.size m + d)%positive.
Proof.
  induction d using Pos.peano_ind.
  - simpl. lia.
  - rewrite Pos.iter_succ. simpl. rewrite IHd. lia.
Qed.

Lemma iter_pos_comm {A} (f : A -> A) (p : positive) (x : A) :
  SpecFloat.iter_pos f p (f x) = f (SpecFloat.iter_pos f p x).
Proof.
  revert x. induction p; intros x; simpl; rewrite ?IHp; reflexivity.
Qed.

Lemma iter_pos_succ {A} (f : A -> A) (p : positive) (x : A) :
  SpecFloat.iter_pos f (Pos.succ p) x = f (SpecFloat.iter_pos f p x).
Proof.
  revert x. induction p; intros x; simpl.
  - rewrite !IHp, !iter_pos_comm. reflexivity.
  - rewrite !iter_pos_comm. reflexivity.
  - reflexivity.
Qed.

(** Shifting out zero bits is exact. *)
Lemma iter_shr_1_exact (q d : positive) :
  SpecFloat.iter_pos shr_1 d {| shr_m := Zpos (Pos.iter xO q d); shr_r := false; shr_s := false |}
  = {| shr_m := Zpos q; shr_r := false; shr_s := false |}.
Proof.
  induction d using Pos.peano_ind.
  - reflexivity.
  - rewrite iter_pos_succ, Pos.iter_succ, <- iter_pos_comm. simpl shr_1. exact IHd.
Qed.

(** A mantissa of 53 bits, in range: rounding does nothing. *)
Lemma binary_round_aux_canonical (q : positive) (k : Z) :
  Pos.size q = 53%positive -> -1074 <= k <= 971 ->
  binary_round_aux 53 1024 false (Zpos q) k loc_Exact = S754_finite false q k.
Proof.
  intros Hq Hk. unfold binary_round_aux, shr_fexp, Zdigits2.
  rewrite digits2_pos_size, Hq.
  unfold fexp, emin.
  replace (Z.max (53 + k - 53) (3 - 1024 - 53) - k) with 0 by lia.
  cbn [shr shr_record_of_loc shr_m loc_of_shr_record round_nearest_even].
  unfold Zdigits2. rewrite digits2_pos_size, Hq.
  replace (Z.max (53 + k - 53) (3 - 1024 - 53) - k) with 0 by lia.
  cbn [shr shr_record_of_loc shr_m].
  destruct (Z.leb_spec k (1024 - 53)); [reflexivity | lia].
Qed.

(** Fewer than 53 bits: the mantissa is shifted left. *)
Lemma binary_round_short (m j : positive) (e : Z) :
  (Pos.size m + j = 53)%positive -> -1074 <= e - Zpos j <= 971 ->
  binary_round 53 1024 false m e
  = S754_finite false (Pos.iter xO m j) (e - Zpos j).
Proof.
  intros Hm He. unfold binary_round, shl_align.
  rewrite digits2_pos_size. unfold fexp, emin.
  assert (Zpos (Pos.size m) = 53 - Zpos j) as Hs by lia.
  rewrite Hs.
  replace (Z.max (53 - Zpos j + e - 53) (3 - 1024 - 53) - e) with (Zneg j) by lia.
  replace (Z.max (53 - Zpos j + e - 53) (3 - 1024 - 53)) with (e - Zpos j) by lia.
  apply binary_round_aux_canonical; [| lia].
  rewrite size_iter_xO. exact Hm.
Qed.

Lemma binary_round_exact53 (m : positive) (e : Z) :
  Pos.size m = 53%positive -> -1074 <= e <= 971 ->
  binary_round 53 1024 false m e = S754_finite false m e.
Proof.
  intros Hm He. unfold binary_round, shl_align.
  rewrite digits2_pos_size, Hm. unfold fexp, emin.
  replace (Z.max (53 + e - 53) (3 - 1024 - 53) - e) with 0 by lia.
  replace (Z.max (53 + e - 53) (3 - 1024 - 53)) with e by lia.
  cbn iota. replace e with (e) by reflexivity.
  apply binary_round_aux_canonical; assumption.
Qed.

(** More than 53 bits, the extra ones zero: shifted right, exactly. *)
Lemma binary_round_long (q j : positive) (e : Z) :
  Pos.size q = 53%positive -> -1074 <= e + Zpos j <= 971 ->
  binary_round 53 1024 false (Pos.iter xO q j) e
  = S754_finite false q (e + Zpos j).
Proof.
  intros Hq He. unfold binary_round, shl_align.
  rewrite digits2_pos_size, size_iter_xO, Hq. unfold fexp, emin.
  replace (Z.max (Zpos (53 + j) + e - 53) (3 - 1024 - 53) - e) with (Zpos j) by lia.
  cbn iota.
  unfold binary_round_aux, shr_fexp, Zdigits2.
  rewrite digits2_pos_size, size_iter_xO, Hq. unfold fexp, emin.
  replace (Z.max (Zpos (53 + j) + e - 53) (3 - 1024 - 53) - e) with (Zpos j) by lia.
  cbn [shr shr_record_of_loc]. rewrite iter_shr_1_exact.
  cbn [shr_m loc_of_shr_record round_nearest_even].
  unfold Zdigits2. rewrite digits2_pos_size, Hq.
  replace (Z.max (53 + (e + Zpos j) - 53) (3 - 1024 - 53) - (e + Zpos j)) with 0 by lia.
  cbn [shr shr_record_of_loc shr_m].
  destruct (Z.leb_spec (e + Zpos j) (1024 - 53)); [reflexivity | lia].
Qed.

Lemma size_le_53 (p : positive) :
  Zpos p < 2 ^ 53 -> (Pos.size p <= 53)%positive.
Proof.
  intros Hp. pose proof (Pos.size_le p) as Hle.
  destruct (Pos.leb_spec (Pos.size p) 53%positive) as [| Hgt]; [assumption |].
  exfalso.
  assert (Zpos (2 ^ Pos.size p) <= Zpos p~0) as Hz by lia.
  rewrite Pos2Z.inj_pow in Hz.
  assert (2 ^ 54 <= 2 ^ Zpos (Pos.size p)) by (apply Z.pow_le_mono_r; lia).
  lia.
Qed.

(** The binary64 value of a positive integer below 2^53, aligned to the
    exponent of 1. *)
Lemma to_binary64_pos (p : positive) :
  Zpos p < 2 ^ 53 ->
  exists (mx : positive) (ex : Z),
    Number.to_binary64 (Zpos p) = S754_finite false mx ex /\
    -52 <= ex <= 0 /\
    fst (shl_align mx ex (-52)) = Pos.iter xO p 52.
Proof.
  intros Hp. apply size_le_53 in Hp. unfold Number.to_binary64, binary_normalize.
  destruct (Pos.eq_dec (Pos.size p) 53%positive) as [H53 | Hne].
  - exists p, 0. rewrite binary_round_exact53 by (assumption || lia).
    repeat split; lia.
  - assert (exists j, (Pos.size p + j = 53)%positive) as [j Hj].
    { exists (53 - Pos.size p)%positive. lia. }
    exists (Pos.iter xO p j), (0 - Zpos j).
    rewrite (binary_round_short p j 0 Hj) by lia.
    split; [reflexivity |]. split; [lia |].
    unfold shl_align.
    destruct (Pos.eq_dec j 52%positive) as [-> | Hj52].
    + reflexivity.
    + replace (-52 - (0 - Zpos j)) with (Zneg (52 - j)) by lia.
      cbn [fst]. rewrite <- Pos.iter_add. f_equal. lia.
Qed.

Lemma binary_round_sum (p : positive) :
  Zpos p < 2 ^ 53 ->
  binary_round 53 1024 false (Pos.iter xO p 52) (-52) = Number.to_binary64 (Zpos p).
Proof.
  intros Hp. apply size_le_53 in Hp. unfold Number.to_binary64, binary_normalize.
  destruct (Pos.eq_dec (Pos.size p) 53%positive) as [H53 | Hne].
  - rewrite (binary_round_long p 52%positive (-52) H53) by lia.
    rewrite binary_round_exact53 by (assumption || lia). reflexivity.
  - assert (exists j, (Pos.size p + j = 53)%positive) as [j Hj].
    { exists (53 - Pos.size p)%positive. lia. }
    rewrite (binary_round_short p j 0 Hj) by lia.
    destruct (Pos.eq_dec j 52%positive) as [-> | Hj52].
    + assert (Pos.size p = 1%positive) as H1 by lia.
      destruct p; simpl in H1; try lia. reflexivity.
    + replace (Pos.iter xO p 52) with (Pos.iter xO (Pos.iter xO p j) (52 - j)).
      2: { rewrite <- Pos.iter_add. f_equal. lia. }
      rewrite binary_round_long.
      * f_equal. lia.
      * rewrite size_iter_xO. exact Hj.
      * lia.
Qed.

Lemma iter_xO_succ_52 (p : positive) :
  Zpos (Pos.iter xO p 52) + Zpos (Pos.iter xO 1%positive 52)
  = Zpos (Pos.iter xO (p + 1)%positive 52).
Proof. rewrite !iter_xO_mul. lia. Qed.

Lemma binary64_add_1 (n : Z) :
  0 <= n < 2 ^ 53 - 1 ->
  Number.binary64_add (Number.to_binary64 n) (Number.to_binary64 1) = Number.to_binary64 (n + 1).
Proof.
  intros Hn. destruct n as [| p | p]; [reflexivity | | lia].
  destruct (to_binary64_pos p) as (mx & ex & Hx & Hex & Hal); [lia |].
  rewrite Hx.
  change (Number.to_binary64 1) with (S754_finite false (Pos.iter xO 1%positive 52) (-52)).
  unfold Number.binary64_add, SFadd.
  replace (Z.min ex (-52)) with (-52) by lia.
  rewrite Hal.
  change (fst (shl_align (Pos.iter xO 1%positive 52) (-52) (-52)))
    with (Pos.iter xO 1%positive 52).
  cbn [cond_Zopp]. rewrite iter_xO_succ_52.
  unfold binary_normalize. rewrite binary_round_sum by lia.
  reflexivity.
Qed.


Lemma Number_add_is_binary64_add (n : Z) :
  0 <= n <= Number.max_exact ->
  Number.binary64_add (Number.to_binary64 n) (Number.to_binary64 1)
  = Number.to_binary64 (Number.add n 1).
Proof.
  intros Hn. change Number.max_exact with (2 ^ 53) in Hn.
  destruct (Z.eq_dec n (2 ^ 53)) as [-> | Hne1]; [reflexivity |].
  destruct (Z.eq_dec n (2 ^ 53 - 1)) as [-> | Hne2]; [reflexivity |].
  rewrite Number_add_exact by (change Number.max_exact with (2 ^ 53); lia).
  apply binary64_add_1. lia.
Qed.

(** Beyond 2^53 only every second integer, then every fourth, is a Number;
    there too the integer model rounds as binary64 addition does. *)
Example Number_add_binary64_beyond_max_exact :
  Forall (fun n => Number.binary64_add (Number.to_binary64 n) (Number.to_binary64 1)
                   = Number.to_binary64 (Number.add n 1))
         [2 ^ 53 + 2; 2 ^ 53 + 4; 2 ^ 54; 2 ^ 54 + 4; 2 ^ 60; 2 ^ 60 + 2 ^ 8].
Proof. repeat constructor. Qed.

Lemma counter_after_0 (c : Z) :
  0 <= c <= Number.max_exact -> counter_after c 0 = c.
Proof. unfold counter_after. lia. Qed.

Lemma counter_after_S (c : Z) (k : nat) :
  0 <= c <= Number.max_exact ->
  counter_after (Number.add c 1) k = counter_after c (S k).
Proof.
  intros Hc. unfold counter_after.
  destruct (Z.eq_dec c Number.max_exact) as [-> | Hne].
  - rewrite Number_add_stuck. lia.
  - rewrite Number_add_exact by lia. lia.
Qed.

Lemma Number_add_range (c : Z) :
  0 <= c <= Number.max_exact -> 0 <= Number.add c 1 <= Number.max_exact.
Proof.
  intros Hc. destruct (Z.eq_dec c Number.max_exact) as [-> | Hne].
  - rewrite Number_add_stuck. lia.
  - rewrite Number_add_exact by lia. lia.
Qed.

(** ** The heap only grows *)

Lemma lookup_fresh {A} (h l : list A) (k : nat) :
  (h ++ l) !! (length h + k)%nat = l !! k.
Proof. rewrite lookup_app_r by lia. f_equal. lia. Qed.

Lemma lookup_fresh_0 {A} (h l : list A) :
  (h ++ l) !! length h = l !! 0%nat.
Proof. rewrite <- (lookup_fresh h l 0). f_equal. lia. Qed.

Lemma insert_fresh {A} (h l : list A) (k : nat) (x : A) :
  <[(length h + k)%nat := x]> (h ++ l) = h ++ <[k := x]> l.
Proof. apply insert_app_r. Qed.

Lemma extends_refl (r : Runtime) : extends r r.
Proof. unfold extends. reflexivity. Qed.

Lemma extends_trans (r1 r2 r3 : Runtime) :
  extends r1 r2 -> extends r2 r3 -> extends r1 r3.
Proof. unfold extends. intros H12 H23. by etrans. Qed.

Lemma extends_lookup (r r' : Runtime) (l : nat) (c : cell) :
  extends r r' -> heap r !! l = Some c -> heap r' !! l = Some c.
Proof. unfold extends. intros Hext Hl. by eapply prefix_lookup_Some. Qed.

Lemma extends_treeStateAt (r r' : Runtime) (l : nat) (t : TreeState) :
  extends r r' -> treeStateAt r l = Some t -> treeStateAt r' l = Some t.
Proof.
  unfold treeStateAt. intros Hext Hl.
  destruct (heap r !! l) as [c |] eqn:E; [| done].
  by rewrite (extends_lookup _ _ _ _ Hext E).
Qed.

Lemma extends_storeStateAt (r r' : Runtime) (l : nat) (s : StoreState) :
  extends r r' -> storeStateAt r l = Some s -> storeStateAt r' l = Some s.
Proof.
  unfold storeStateAt. intros Hext Hl.
  destruct (heap r !! l) as [c |] eqn:E; [| done].
  by rewrite (extends_lookup _ _ _ _ Hext E).
Qed.

Lemma extends_versionAt (r r' : Runtime) (l : nat) (v : Z) :
  extends r r' -> versionAt r l = Some v -> versionAt r' l = Some v.
Proof.
  unfold versionAt. intros Hext Hl.
  destruct (treeStateAt r l) as [t |] eqn:E; [| done].
  by rewrite (extends_treeStateAt _ _ _ _ Hext E).
Qed.

(** ** What each function does, in closed form *)

Ltac run_code :=
  cbv [makeEmptyTreeState makeStoreState getNextTreeStateVersion graph
       argument getVersion
       mapSet readMap readTreeState readStoreState read write alloc
       bind ret throw heap nextTreeStateVersion];
  rewrite <- ?app_assoc; cbn [app].

Ltac tidy_heap :=
  rewrite <- ?app_assoc; cbn [app];
  rewrite ?length_app; cbn [length];
  rewrite <- ?Nat.add_assoc; cbn [Nat.add].

Lemma getNextTreeStateVersion_run (r : Runtime) :
  getNextTreeStateVersion r =
  Ok (nextTreeStateVersion r)
     {| nextTreeStateVersion := Number.add (nextTreeStateVersion r) 1;
        heap := heap r |}.
Proof. reflexivity. Qed.

Lemma makeEmptyTreeState_run (r : Runtime) :
  makeEmptyTreeState r =
  let n := length (heap r) in
  Ok (n + 4)%nat
     {| nextTreeStateVersion := Number.add (nextTreeStateVersion r) 1;
        heap := heap r ++
                [CObject []; CSet []; CMap []; CMap [];
                 CTreeState {| version := nextTreeStateVersion r;
                               transactionMetadata := n;
                               dirtyAtoms := (n + 1)%nat;
                               atomValues := (n + 2)%nat;
                               nonvalidatedAtoms := (n + 3)%nat |}] |}.
Proof. destruct r as [c h]. run_code. tidy_heap. reflexivity. Qed.

(** For any object as argument, [makeStoreState] returns; the graph is
    keyed by what the [version] property of that object gives. *)
Lemma makeStoreState_returns (r : Runtime) (t : nat) (c : cell) :
  heap r !! t = Some c ->
  makeStoreState t r =
  let n := length (heap r) in
  Ok (n + 10)%nat
     {| nextTreeStateVersion := nextTreeStateVersion r;
        heap := heap r ++
                [CSet []; CSet []; CMap []; CMap []; CArray []; CSet []; CMap [];
                 CMap [(versionProperty c, VRef (n + 8)%nat)];
                 CGraph []; CMap [];
                 CStoreState {| currentTree := t;
                                nextTree := None;
                                knownAtoms := n;
                                knownSelectors := (n + 1)%nat;
                                transactionSubscriptions := (n + 2)%nat;
                                nodeTransactionSubscriptions := (n + 3)%nat;
                                queuedComponentCallbacks := (n + 4)%nat;
                                suspendedComponentResolvers := (n + 5)%nat;
                                nodeToComponentSubscriptions := (n + 6)%nat;
                                graphsByVersion := (n + 7)%nat;
                                versionsUsedByComponent := (n + 9)%nat |}] |}.
Proof.
  destruct r as [k h]. cbn [heap nextTreeStateVersion]. intros Ht.
  run_code. rewrite Ht. cbv beta iota.
  rewrite (lookup_app_l h _ t) by (eapply lookup_lt_Some; eauto).
  rewrite Ht. tidy_heap.
  rewrite !lookup_fresh. cbn [lookup list_lookup].
  rewrite !insert_fresh. cbn [insert list_insert].
  tidy_heap. reflexivity.
Qed.

Lemma makeStoreState_run (r : Runtime) (t : nat) (ts : TreeState) :
  treeStateAt r t = Some ts ->
  makeStoreState t r =
  let n := length (heap r) in
  Ok (n + 10)%nat
     {| nextTreeStateVersion := nextTreeStateVersion r;
        heap := heap r ++
                [CSet []; CSet []; CMap []; CMap []; CArray []; CSet []; CMap [];
                 CMap [(VNumber (version ts), VRef (n + 8)%nat)];
                 CGraph []; CMap [];
                 CStoreState {| currentTree := t;
                                nextTree := None;
                                knownAtoms := n;
                                knownSelectors := (n + 1)%nat;
                                transactionSubscriptions := (n + 2)%nat;
                                nodeTransactionSubscriptions := (n + 3)%nat;
                                queuedComponentCallbacks := (n + 4)%nat;
                                suspendedComponentResolvers := (n + 5)%nat;
                                nodeToComponentSubscriptions := (n + 6)%nat;
                                graphsByVersion := (n + 7)%nat;
                                versionsUsedByComponent := (n + 9)%nat |}] |}.
Proof.
  unfold treeStateAt. intros Ht.
  destruct (heap r !! t) as [[] |] eqn:E; try discriminate.
  injection Ht as ->. by rewrite (makeStoreState_returns _ _ _ E).
Qed.

(** Without an object for argument (the argument is [null] or
    [undefined]), reading [treeState.version] throws, after the eight
    objects of the earlier properties were created. *)
Lemma makeStoreState_throws (r : Runtime) (t : nat) :
  heap r !! t = None ->
  makeStoreState t r =
  Throw TypeError
     {| nextTreeStateVersion := nextTreeStateVersion r;
        heap := heap r ++
                [CSet []; CSet []; CMap []; CMap []; CArray []; CSet []; CMap [];
                 CMap []] |}.
Proof.
  destruct r as [k h]. cbn [heap nextTreeStateVersion]. intros Ht.
  run_code. rewrite Ht. reflexivity.
Qed.

Lemma makeEmptyStoreState_run (r : Runtime) :
  makeEmptyStoreState r =
  let n := length (heap r) in
  Ok (n + 15)%nat
     {| nextTreeStateVersion := Number.add (nextTreeStateVersion r) 1;
        heap := heap r ++
                [CObject []; CSet []; CMap []; CMap [];
                 CTreeState {| version := nextTreeStateVersion r;
                               transactionMetadata := n;
                               dirtyAtoms := (n + 1)%nat;
                               atomValues := (n + 2)%nat;
                               nonvalidatedAtoms := (n + 3)%nat |};
                 CSet []; CSet []; CMap []; CMap []; CArray []; CSet []; CMap [];
                 CMap [(VNumber (nextTreeStateVersion r), VRef (n + 13)%nat)];
                 CGraph []; CMap [];
                 CStoreState {| currentTree := (n + 4)%nat;
                                nextTree := None;
                                knownAtoms := (n + 5)%nat;
                                knownSelectors := (n + 6)%nat;
                                transactionSubscriptions := (n + 7)%nat;
                                nodeTransactionSubscriptions := (n + 8)%nat;
                                queuedComponentCallbacks := (n + 9)%nat;
                                suspendedComponentResolvers := (n + 10)%nat;
                                nodeToComponentSubscriptions := (n + 11)%nat;
                                graphsByVersion := (n + 12)%nat;
                                versionsUsedByComponent := (n + 14)%nat |}] |}.
Proof.
  unfold makeEmptyStoreState, bind. rewrite makeEmptyTreeState_run.
  cbv beta iota zeta. erewrite makeStoreState_run.
  2: { unfold treeStateAt. cbn [heap]. rewrite lookup_fresh. reflexivity. }
  destruct r as [c h]. cbn [heap nextTreeStateVersion version]. tidy_heap.
  reflexivity.
Qed.

(** ** Effects of one call *)

Lemma perform_extends (c : call) (r : Runtime) :
  extends r (after (perform c r)).
Proof.
  unfold extends. destruct c as [| | t |]; cbn [perform]; unfold bind, ret.
  - rewrite getNextTreeStateVersion_run. reflexivity.
  - rewrite makeEmptyTreeState_run. cbn. by eexists.
  - destruct (heap r !! t) as [o |] eqn:Ht.
    + rewrite (makeStoreState_returns _ _ _ Ht). cbn. by eexists.
    + rewrite (makeStoreState_throws _ _ Ht). cbn. by eexists.
  - rewrite makeEmptyStoreState_run. cbn. by eexists.
Qed.

Lemma perform_counter (c : call) (r : Runtime) :
  nextTreeStateVersion (after (perform c r)) =
  if allocates c then Number.add (nextTreeStateVersion r) 1
  else nextTreeStateVersion r.
Proof.
  destruct c as [| | t |]; cbn [perform allocates]; unfold bind, ret.
  - reflexivity.
  - by rewrite makeEmptyTreeState_run.
  - destruct (heap r !! t) as [o |] eqn:Ht.
    + by rewrite (makeStoreState_returns _ _ _ Ht).
    + by rewrite (makeStoreState_throws _ _ Ht).
  - by rewrite makeEmptyStoreState_run.
Qed.

Lemma perform_issued (c : call) (r : Runtime) :
  issued c (perform c r) =
  if allocates c then Some (nextTreeStateVersion r) else None.
Proof.
  destruct c as [| | t |]; cbn [perform allocates]; unfold bind, ret.
  - reflexivity.
  - rewrite makeEmptyTreeState_run. cbn [issued].
    unfold versionAt, treeStateAt. cbn [heap].
    rewrite lookup_fresh. reflexivity.
  - destruct (makeStoreState t r) as [? ? | ? ?]; reflexivity.
  - rewrite makeEmptyStoreState_run. cbn [issued].
    unfold currentVersionAt, versionAt, storeStateAt, treeStateAt. cbn [heap].
    rewrite lookup_fresh. cbn [lookup list_lookup currentTree].
    rewrite lookup_fresh. reflexivity.
Qed.

(** ** Call sequences *)

Lemma run_cons (c : call) (cs : list call) (r : Runtime) :
  run (c :: cs) r =
  ({| ev_call := c;
      ev_answer := answered (perform c r);
      ev_version := issued c (perform c r) |}
     :: fst (run cs (after (perform c r))),
   snd (run cs (after (perform c r)))).
Proof. cbn [run]. by destruct (run cs (after (perform c r))). Qed.

Lemma run_extends (cs : list call) (r : Runtime) :
  extends r (snd (run cs r)).
Proof.
  revert r. induction cs as [| c cs IH]; intros r.
  - apply extends_refl.
  - rewrite run_cons. cbn [snd].
    eapply extends_trans; [apply perform_extends | apply IH].
Qed.

Lemma run_counter (cs : list call) (r : Runtime) :
  0 <= nextTreeStateVersion r <= Number.max_exact ->
  nextTreeStateVersion (snd (run cs r)) =
  counter_after (nextTreeStateVersion r) (allocations cs).
Proof.
  revert r. induction cs as [| c cs IH]; intros r Hr.
  - cbn. by rewrite counter_after_0.
  - rewrite run_cons. cbn [snd allocations].
    pose proof (perform_counter c r) as Hc.
    destruct (allocates c).
    + rewrite IH, Hc; [| rewrite Hc; by apply Number_add_range].
      by rewrite counter_after_S.
    + rewrite IH, Hc; [done | by rewrite Hc].
Qed.

Lemma versions_cons (c : call) (cs : list call) (r : Runtime) :
  versions (c :: cs) r =
  if allocates c
  then nextTreeStateVersion r :: versions cs (after (perform c r))
  else versions cs (after (perform c r)).
Proof.
  unfold versions. rewrite run_cons. cbn [fst omap list_omap ev_version].
  rewrite perform_issued. by destruct (allocates c).
Qed.

(** The [k]-th version issued is [min (c + k) 2^53], where [c] is the
    counter at the start. *)
Lemma versions_closed_form (cs : list call) (r : Runtime) :
  0 <= nextTreeStateVersion r <= Number.max_exact ->
  versions cs r =
  counter_after (nextTreeStateVersion r) <$> seq 0 (allocations cs).
Proof.
  revert r. induction cs as [| c cs IH]; intros r Hr; [reflexivity |].
  rewrite versions_cons. cbn [allocations].
  pose proof (perform_counter c r) as Hc.
  destruct (allocates c).
  - rewrite IH, Hc; [| rewrite Hc; by apply Number_add_range].
    cbn [Nat.add seq fmap list_fmap]. rewrite counter_after_0 by done.
    f_equal. rewrite <- fmap_S_seq, <- list_fmap_compose.
    apply list_fmap_ext. intros _ k _. cbn. by apply counter_after_S.
  - rewrite IH, Hc; [done | by rewrite Hc].
Qed.

Lemma versions_lookup (cs : list call) (r : Runtime) (k : nat) (v : Z) :
  0 <= nextTreeStateVersion r <= Number.max_exact ->
  versions cs r !! k = Some v <->
  (k < allocations cs)%nat /\ v = counter_after (nextTreeStateVersion r) k.
Proof.
  intros Hr. rewrite (versions_closed_form _ _ Hr), list_lookup_fmap.
  split.
  - intros H. apply fmap_Some in H as (k' & Hk & ->).
    apply lookup_seq in Hk as [-> Hlt]. done.
  - intros [Hlt ->]. by rewrite lookup_seq_lt.
Qed.

(** ** The version allocator *)

Lemma counter_after_lt (c : Z) (i j : nat) :
  0 <= c -> (i < j)%nat -> c + Z.of_nat j <= Number.max_exact ->
  counter_after c i < counter_after c j.
Proof. unfold counter_after. lia. Qed.

Lemma counter_after_stuck (c : Z) (k : nat) :
  Number.max_exact <= c + Z.of_nat k -> counter_after c k = Number.max_exact.
Proof. unfold counter_after. lia. Qed.

Lemma max_exact_pos : 0 < Number.max_exact.
Proof. reflexivity. Qed.

Lemma allocations_replicate (n : nat) :
  allocations (replicate n GetNextTreeStateVersion) = n.
Proof. induction n as [| n IH]; cbn; [done | by rewrite IH]. Qed.

(** Calling the allocator [n] times in a row from the initial runtime: every
    call from the [2^53]-th on (counting from 0) returns [2^53]. *)
Lemma versions_replicate_stuck (n k : nat) :
  (k < n)%nat -> Number.max_exact <= Z.of_nat k ->
  versions (replicate n GetNextTreeStateVersion) initial !! k
  = Some Number.max_exact.
Proof.
  intros Hk Hmax. pose proof max_exact_pos.
  apply versions_lookup; cbn [initial nextTreeStateVersion]; [lia |].
  rewrite allocations_replicate. split; [done |].
  rewrite counter_after_stuck; [done | lia].
Qed.

(** C1, as amended.  In a runtime whose counter is still at its origin, the
    first version issued by any sequence of calls is 0, and each of the first
    2^53 + 1 versions issued (positions 0 to 2^53) is strictly greater than
    every version issued before it. *)
Theorem getNextTreeStateVersion_strictly_monotone
  (cs : list call) (r : Runtime) (i j : nat) (a b : Z) :
  nextTreeStateVersion r = 0 ->
  (i < j)%nat ->
  Z.of_nat j <= Number.max_exact ->
  versions cs r !! i = Some a ->
  versions cs r !! j = Some b ->
  head (versions cs r) = Some 0 /\ a < b.
Proof.
  intros Hr Hij Hj Ha Hb. pose proof max_exact_pos as Hpos.
  assert (0 <= nextTreeStateVersion r <= Number.max_exact) as Hrange by lia.
  apply (versions_lookup _ _ _ _ Hrange) in Ha as [Hi ->].
  apply (versions_lookup _ _ _ _ Hrange) in Hb as [Hj' ->].
  split.
  - rewrite head_lookup. apply versions_lookup; [done |].
    split; [lia |]. rewrite Hr. unfold counter_after. lia.
  - apply counter_after_lt; lia.
Qed.

Lemma getNextTreeStateVersion_strictly_monotone_witness :
  head (versions [GetNextTreeStateVersion; MakeEmptyStoreState;
                  MakeStoreState 4; GetNextTreeStateVersion] initial) = Some 0
  /\ 1 < 2.
Proof.
  apply (getNextTreeStateVersion_strictly_monotone
           [GetNextTreeStateVersion; MakeEmptyStoreState;
            MakeStoreState 4; GetNextTreeStateVersion] initial 1 2 1 2).
  - reflexivity.
  - lia.
  - vm_compute. discriminate.
  - reflexivity.
  - reflexivity.
Defined.

(** C1, as stated, fails: of 2^53 + 2 successive calls of the allocator in a
    fresh runtime, the last two both return 2^53, because the Number
    2^53 + 1 does not exist and [nextTreeStateVersion++] leaves the counter
    at 2^53. *)
Lemma getNextTreeStateVersion_not_strictly_monotone :
  let cs := replicate (Z.to_nat (Number.max_exact + 2)) GetNextTreeStateVersion in
  ~ (forall (i j : nat) (a b : Z),
       (i < j)%nat ->
       versions cs initial !! i = Some a ->
       versions cs initial !! j = Some b ->
       a < b).
Proof.
  intros cs Hclaim. pose proof max_exact_pos as Hpos.
  specialize (Hclaim (Z.to_nat Number.max_exact)
                     (Z.to_nat (Number.max_exact + 1))
                     Number.max_exact Number.max_exact).
  apply (Z.lt_irrefl Number.max_exact). apply Hclaim.
  - apply Z2Nat.inj_lt; lia.
  - apply versions_replicate_stuck.
    + apply Z2Nat.inj_lt; lia.
    + rewrite Z2Nat.id; lia.
  - apply versions_replicate_stuck.
    + apply Z2Nat.inj_lt; lia.
    + rewrite Z2Nat.id; lia.
Qed.

(** C9, as amended.  The [k]-th version issued in a runtime that started at
    the origin is [min k 2^53], and the version issued next after [v] is
    [min (v + 1) 2^53]: consecutive integers 0, 1, 2, ... up to 2^53, and
    2^53 from then on. *)
Theorem getNextTreeStateVersion_consecutive
  (cs : list call) (r : Runtime) (k : nat) (v w : Z) :
  nextTreeStateVersion r = 0 ->
  versions cs r !! k = Some v ->
  versions cs r !! S k = Some w ->
  v = Z.min (Z.of_nat k) Number.max_exact /\
  w = Z.min (v + 1) Number.max_exact.
Proof.
  intros Hr Hv Hw. pose proof max_exact_pos as Hpos.
  assert (0 <= nextTreeStateVersion r <= Number.max_exact) as Hrange by lia.
  apply (versions_lookup _ _ _ _ Hrange) in Hv as [_ ->].
  apply (versions_lookup _ _ _ _ Hrange) in Hw as [_ ->].
  rewrite Hr. unfold counter_after. lia.
Qed.

Lemma getNextTreeStateVersion_consecutive_witness :
  5 = Z.min (Z.of_nat 5) Number.max_exact /\
  6 = Z.min (5 + 1) Number.max_exact.
Proof.
  apply (getNextTreeStateVersion_consecutive
           (replicate 4 MakeEmptyTreeState
              ++ replicate 4 GetNextTreeStateVersion) initial 5 5 6);
    reflexivity.
Defined.

(** C9, as stated, fails at the same place: the call that follows the one
    returning 2^53 returns 2^53 again, not 2^53 + 1. *)
Lemma getNextTreeStateVersion_not_consecutive :
  let cs := replicate (Z.to_nat (Number.max_exact + 2)) GetNextTreeStateVersion in
  ~ (forall (k : nat) (v w : Z),
       versions cs initial !! k = Some v ->
       versions cs initial !! S k = Some w ->
       w = v + 1).
Proof.
  intros cs Hclaim. pose proof max_exact_pos as Hpos.
  specialize (Hclaim (Z.to_nat Number.max_exact)
                     Number.max_exact Number.max_exact).
  enough (Number.max_exact = Number.max_exact + 1) by lia.
  apply Hclaim.
  - apply versions_replicate_stuck.
    + apply Z2Nat.inj_lt; lia.
    + rewrite Z2Nat.id; lia.
  - apply versions_replicate_stuck.
    + rewrite <- Z2Nat.inj_succ by lia. apply Z2Nat.inj_lt; lia.
    + rewrite Nat2Z.inj_succ, Z2Nat.id; lia.
Qed.

(** ** The constructors *)

(** C3.  Given a tree state [t], [makeStoreState t] returns a store state
    whose [currentTree] is [t], whose [nextTree] is null, whose sets, maps
    and queue are empty, and whose [graphsByVersion] has exactly one entry,
    from the version of [t] to an empty graph. *)
Theorem makeStoreState_spec (r : Runtime) (t : nat) (ts : TreeState) :
  treeStateAt r t = Some ts ->
  exists (s : nat) (r' : Runtime) (st : StoreState) (g : nat),
    makeStoreState t r = Ok s r' /\
    storeStateAt r' s = Some st /\
    currentTree st = t /\
    treeStateAt r' t = Some ts /\
    nextTree st = None /\
    heap r' !! knownAtoms st = Some (CSet []) /\
    heap r' !! knownSelectors st = Some (CSet []) /\
    heap r' !! versionsUsedByComponent st = Some (CMap []) /\
    heap r' !! nodeToComponentSubscriptions st = Some (CMap []) /\
    heap r' !! transactionSubscriptions st = Some (CMap []) /\
    heap r' !! nodeTransactionSubscriptions st = Some (CMap []) /\
    heap r' !! queuedComponentCallbacks st = Some (CArray []) /\
    heap r' !! suspendedComponentResolvers st = Some (CSet []) /\
    heap r' !! graphsByVersion st
      = Some (CMap [(VNumber (version ts), VRef g)]) /\
    heap r' !! g = Some (CGraph []).
Proof.
  intros Hts. rewrite (makeStoreState_run _ _ _ Hts). cbv zeta.
  eexists _, _, _, _. split; [reflexivity |].
  unfold storeStateAt. cbn [heap].
  split; [by rewrite lookup_fresh |].
  cbn [currentTree nextTree knownAtoms knownSelectors versionsUsedByComponent
       nodeToComponentSubscriptions transactionSubscriptions
       nodeTransactionSubscriptions queuedComponentCallbacks
       suspendedComponentResolvers graphsByVersion].
  split; [reflexivity |].
  split.
  { eapply extends_treeStateAt; [| exact Hts]. unfold extends. cbn. by eexists. }
  rewrite !lookup_fresh, lookup_fresh_0.
  repeat split; reflexivity.
Qed.

Lemma makeStoreState_spec_witness :
  exists (s : nat) (r' : Runtime) (st : StoreState) (g : nat),
    makeStoreState 4 (after (makeEmptyTreeState initial)) = Ok s r' /\
    storeStateAt r' s = Some st /\
    currentTree st = 4%nat /\
    treeStateAt r' 4 = Some (mkTreeState 0 0 1 2 3) /\
    nextTree st = None /\
    heap r' !! knownAtoms st = Some (CSet []) /\
    heap r' !! knownSelectors st = Some (CSet []) /\
    heap r' !! versionsUsedByComponent st = Some (CMap []) /\
    heap r' !! nodeToComponentSubscriptions st = Some (CMap []) /\
    heap r' !! transactionSubscriptions st = Some (CMap []) /\
    heap r' !! nodeTransactionSubscriptions st = Some (CMap []) /\
    heap r' !! queuedComponentCallbacks st = Some (CArray []) /\
    heap r' !! suspendedComponentResolvers st = Some (CSet []) /\
    heap r' !! graphsByVersion st = Some (CMap [(VNumber 0, VRef g)]) /\
    heap r' !! g = Some (CGraph []).
Proof.
  apply (makeStoreState_spec (after (makeEmptyTreeState initial)) 4
           (mkTreeState 0 0 1 2 3)).
  reflexivity.
Defined.

(** C10.  [makeStoreState t] allocates no version: the counter is the same
    before and after.  It leaves [t], and every other object that existed,
    as it was, and the [currentTree] of its result is the reference [t]
    itself: no tree state is created by the call. *)
Theorem makeStoreState_frame (r : Runtime) (t : nat) (ts : TreeState) :
  treeStateAt r t = Some ts ->
  exists (s : nat) (r' : Runtime) (st : StoreState),
    makeStoreState t r = Ok s r' /\
    nextTreeStateVersion r' = nextTreeStateVersion r /\
    treeStateAt r' t = Some ts /\
    (forall (l : nat) (c : cell), heap r !! l = Some c -> heap r' !! l = Some c) /\
    storeStateAt r' s = Some st /\
    currentTree st = t /\
    (forall (l : nat) (ts' : TreeState),
       treeStateAt r' l = Some ts' -> treeStateAt r l = Some ts').
Proof.
  intros Hts. rewrite (makeStoreState_run _ _ _ Hts). cbv zeta.
  match goal with |- context [Ok _ ?r1] => assert (extends r r1) as Hext end.
  { unfold extends. cbn. by eexists. }
  eexists _, _, _. split; [reflexivity |].
  split; [reflexivity |].
  split; [by eapply extends_treeStateAt |].
  split; [intros l c; by apply extends_lookup |].
  unfold storeStateAt. cbn [heap]. rewrite lookup_fresh.
  split; [reflexivity |]. split; [reflexivity |].
  intros l ts'. unfold treeStateAt. cbn [heap].
  destruct (_ !! l) as [c |] eqn:E; [| discriminate].
  apply lookup_app_Some in E as [-> | [_ E]]; [done |].
  generalize dependent (l - length (heap r))%nat. intros k E.
  do 11 (destruct k as [| k]; [injection E as <-; discriminate |]).
  discriminate.
Qed.

Lemma makeStoreState_frame_witness :
  exists (s : nat) (r' : Runtime) (st : StoreState),
    makeStoreState 4 (after (makeEmptyTreeState initial)) = Ok s r' /\
    nextTreeStateVersion r' = nextTreeStateVersion (after (makeEmptyTreeState initial)) /\
    treeStateAt r' 4 = Some (mkTreeState 0 0 1 2 3) /\
    (forall (l : nat) (c : cell),
       heap (after (makeEmptyTreeState initial)) !! l = Some c ->
       heap r' !! l = Some c) /\
    storeStateAt r' s = Some st /\
    currentTree st = 4%nat /\
    (forall (l : nat) (ts' : TreeState),
       treeStateAt r' l = Some ts' ->
       treeStateAt (after (makeEmptyTreeState initial)) l = Some ts').
Proof.
  apply (makeStoreState_frame (after (makeEmptyTreeState initial)) 4
           (mkTreeState 0 0 1 2 3)).
  reflexivity.
Defined.

(** C8.  [makeEmptyStoreState] is [makeStoreState] after
    [makeEmptyTreeState]: from every runtime both return the same reference
    and leave the same runtime, and they do return. *)
Theorem makeEmptyStoreState_is_composition (r : Runtime) :
  makeEmptyStoreState r = makeStoreState_after_makeEmptyTreeState r /\
  exists (s : nat) (r' : Runtime),
    makeStoreState_after_makeEmptyTreeState r = Ok s r'.
Proof.
  assert (makeEmptyStoreState r = makeStoreState_after_makeEmptyTreeState r)
    as Heq.
  { unfold makeEmptyStoreState, makeStoreState_after_makeEmptyTreeState, bind.
    destruct (makeEmptyTreeState r); reflexivity. }
  split; [exact Heq |].
  rewrite <- Heq, makeEmptyStoreState_run. cbv zeta. eauto.
Qed.

(** C2, as amended.  [makeEmptyStoreState] always returns a store state
    whose current tree has as version the value that the counter had at the
    call (0 in a runtime whose counter is at its origin), whose [nextTree] is
    null and whose [graphsByVersion] has exactly one entry, keyed by that
    version. *)
Theorem makeEmptyStoreState_spec (r : Runtime) :
  exists (s : nat) (r' : Runtime) (st : StoreState) (g : nat),
    makeEmptyStoreState r = Ok s r' /\
    storeStateAt r' s = Some st /\
    currentVersionAt r' s = Some (nextTreeStateVersion r) /\
    nextTree st = None /\
    heap r' !! graphsByVersion st
      = Some (CMap [(VNumber (nextTreeStateVersion r), VRef g)]).
Proof.
  rewrite makeEmptyStoreState_run. cbv zeta.
  eexists _, _, _, _. split; [reflexivity |].
  split; [unfold storeStateAt; cbn [heap]; by rewrite lookup_fresh |].
  unfold currentVersionAt, versionAt, treeStateAt, storeStateAt.
  cbn [heap graphsByVersion nextTree].
  rewrite !lookup_fresh. cbn. rewrite !lookup_fresh.
  repeat split; reflexivity.
Qed.

(** In the initial runtime that version is 0, as in the spec's scenario. *)
Example makeEmptyStoreState_initial :
  exists (s : nat) (r' : Runtime),
    makeEmptyStoreState initial = Ok s r' /\
    currentVersionAt r' s = Some 0 /\
    (nextTree <$> storeStateAt r' s) = Some None /\
    ((fun st => heap r' !! graphsByVersion st) <$> storeStateAt r' s)
      = Some (Some (CMap [(VNumber 0, VRef 13%nat)])).
Proof. eexists _, _. split; [lazy; reflexivity |]. lazy. repeat split. Qed.

(** C2, as stated, fails for the second store of a runtime: its current
    tree has version 1, and its graph is keyed by 1. *)
Lemma makeEmptyStoreState_second_store :
  let r1 := after (makeEmptyStoreState initial) in
  exists (s : nat) (r' : Runtime),
    makeEmptyStoreState r1 = Ok s r' /\
    currentVersionAt r' s = Some 1 /\
    ((fun st => heap r' !! graphsByVersion st) <$> storeStateAt r' s)
      = Some (Some (CMap [(VNumber 1, VRef 29%nat)])).
Proof. eexists _, _. split; [lazy; reflexivity |]. lazy. repeat split. Qed.

(** ** Tree states along call sequences *)

(** C7.  No call of this module changes a tree state that exists: after any
    sequence of calls (among them [makeStoreState] applied to it), the tree
    state at [t] has the same fields, a read of its [dirtyAtoms],
    [atomValues] and [nonvalidatedAtoms] gives the same contents, and so does
    every other object that existed before. *)
Theorem treeState_never_mutated
  (cs : list call) (r : Runtime) (t : nat) (ts : TreeState)
  (atoms : cell * cell * cell) :
  treeStateAt r t = Some ts ->
  readAtoms r t = Some atoms ->
  let r' := snd (run cs r) in
  treeStateAt r' t = Some ts /\
  readAtoms r' t = Some atoms /\
  (forall (l : nat) (c : cell), heap r !! l = Some c -> heap r' !! l = Some c).
Proof.
  intros Hts Hatoms r'. pose proof (run_extends cs r) as Hext. fold r' in Hext.
  pose proof (extends_treeStateAt _ _ _ _ Hext Hts) as Hts'.
  split; [exact Hts' |]. split; [| intros l c; by apply extends_lookup].
  unfold readAtoms in *. rewrite Hts in Hatoms. rewrite Hts'.
  destruct (heap r !! dirtyAtoms ts) as [da |] eqn:Hda; [| discriminate].
  destruct (heap r !! atomValues ts) as [av |] eqn:Hav; [| discriminate].
  destruct (heap r !! nonvalidatedAtoms ts) as [nv |] eqn:Hnv; [| discriminate].
  by rewrite (extends_lookup _ _ _ _ Hext Hda), (extends_lookup _ _ _ _ Hext Hav),
    (extends_lookup _ _ _ _ Hext Hnv).
Qed.

Lemma treeState_never_mutated_witness :
  let r := after (makeEmptyTreeState initial) in
  let r' := snd (run [MakeStoreState 4; MakeEmptyStoreState;
                      GetNextTreeStateVersion; MakeStoreState 4] r) in
  treeStateAt r' 4 = Some (mkTreeState 0 0 1 2 3) /\
  readAtoms r' 4 = Some (CSet [], CMap [], CMap []) /\
  (forall (l : nat) (c : cell), heap r !! l = Some c -> heap r' !! l = Some c).
Proof.
  intros r.
  apply (treeState_never_mutated
           [MakeStoreState 4; MakeEmptyStoreState;
            GetNextTreeStateVersion; MakeStoreState 4]
           r 4 (mkTreeState 0 0 1 2 3) (CSet [], CMap [], CMap []));
    reflexivity.
Defined.

(** What a produced tree state carries as version: the counter at the time
    of its call. *)
Lemma producedTree_version (c : call) (r r' : Runtime) (t : nat) :
  extends (after (perform c r)) r' ->
  producedTree r' {| ev_call := c;
                     ev_answer := answered (perform c r);
                     ev_version := issued c (perform c r) |} = Some t ->
  allocates c = true /\ versionAt r' t = Some (nextTreeStateVersion r).
Proof.
  unfold producedTree. cbn [ev_call ev_answer].
  destruct c as [| | t0 |]; cbn [perform]; unfold bind, ret; try discriminate.
  - rewrite makeEmptyTreeState_run. cbv zeta. cbn [after answered].
    intros Hext [= <-]. split; [reflexivity |].
    apply (extends_versionAt _ _ _ _ Hext).
    unfold versionAt, treeStateAt. cbn [heap]. by rewrite lookup_fresh.
  - rewrite makeEmptyStoreState_run. cbv zeta. cbn [after answered].
    intros Hext Ht. split; [reflexivity |].
    erewrite extends_storeStateAt in Ht; [| exact Hext |].
    2: { unfold storeStateAt. cbn [heap]. by rewrite lookup_fresh. }
    injection Ht as <-. cbn [currentTree].
    apply (extends_versionAt _ _ _ _ Hext).
    unfold versionAt, treeStateAt. cbn [heap]. by rewrite lookup_fresh.
Qed.

Lemma run_produced (cs : list call) (r : Runtime) (i : nat) (e : event) (t : nat) :
  0 <= nextTreeStateVersion r <= Number.max_exact ->
  fst (run cs r) !! i = Some e ->
  producedTree (snd (run cs r)) e = Some t ->
  cs !! i = Some (ev_call e) /\
  allocates (ev_call e) = true /\
  versionAt (snd (run cs r)) t
  = Some (counter_after (nextTreeStateVersion r) (allocations (take i cs))).
Proof.
  revert r i. induction cs as [| c cs IH]; intros r i Hr; [discriminate |].
  rewrite run_cons. cbn [fst snd].
  pose proof (perform_counter c r) as Hc.
  destruct i as [| i]; cbn [lookup list_lookup take allocations].
  - intros [= <-] Ht. cbn [ev_call].
    apply producedTree_version in Ht as [Hal Hv]; [| apply run_extends].
    rewrite counter_after_0 by done. done.
  - intros He Ht.
    assert (0 <= nextTreeStateVersion (after (perform c r)) <= Number.max_exact)
      as Hr'.
    { rewrite Hc. destruct (allocates c); [by apply Number_add_range | done]. }
    destruct (IH _ _ Hr' He Ht) as (Hcs & Hal & Hv).
    split; [exact Hcs |]. split; [exact Hal |].
    rewrite Hv, Hc. destruct (allocates c); [| done].
    by rewrite counter_after_S.
Qed.

Lemma allocations_take_lt (cs : list call) (i j : nat) (c : call) :
  (i < j)%nat -> cs !! i = Some c -> allocates c = true ->
  (allocations (take i cs) < allocations (take j cs))%nat.
Proof.
  revert i j. induction cs as [| c0 cs IH]; intros i j Hij Hc Hal;
    [discriminate |].
  destruct j as [| j]; [lia |].
  destruct i as [| i]; cbn [take allocations].
  - injection Hc as ->. rewrite Hal. lia.
  - cbn in Hc. specialize (IH i j ltac:(lia) Hc Hal). lia.
Qed.

Lemma produced_versions_differ
  (cs : list call) (r : Runtime) (i j : nat) (e1 e2 : event) (t1 t2 : nat)
  (v1 v2 : Z) :
  nextTreeStateVersion r = 0 ->
  (i < j)%nat ->
  fst (run cs r) !! i = Some e1 ->
  fst (run cs r) !! j = Some e2 ->
  producedTree (snd (run cs r)) e1 = Some t1 ->
  producedTree (snd (run cs r)) e2 = Some t2 ->
  versionAt (snd (run cs r)) t1 = Some v1 ->
  versionAt (snd (run cs r)) t2 = Some v2 ->
  v1 < Number.max_exact \/ v2 < Number.max_exact ->
  v1 <> v2.
Proof.
  intros Hr Hij He1 He2 Ht1 Ht2 Hv1 Hv2 Hbelow. pose proof max_exact_pos.
  assert (0 <= nextTreeStateVersion r <= Number.max_exact) as Hrange by lia.
  destruct (run_produced _ _ _ _ _ Hrange He1 Ht1) as (Hc1 & Hal1 & Hw1).
  destruct (run_produced _ _ _ _ _ Hrange He2 Ht2) as (_ & _ & Hw2).
  pose proof (allocations_take_lt _ _ _ _ Hij Hc1 Hal1) as Hlt.
  rewrite Hv1 in Hw1. rewrite Hv2 in Hw2.
  injection Hw1 as ->. injection Hw2 as ->.
  rewrite Hr in *. unfold counter_after in *. lia.
Qed.

(** C5, as amended.  Two tree states produced by distinct calls of
    [makeEmptyTreeState] in one runtime (called directly, or by
    [makeEmptyStoreState] for the current tree of a new store) have distinct
    versions, unless both carry the version 2^53 at which the counter
    stops. *)
Theorem makeEmptyTreeState_versions_distinct
  (cs : list call) (r : Runtime) (i j : nat) (e1 e2 : event) (t1 t2 : nat)
  (v1 v2 : Z) :
  nextTreeStateVersion r = 0 ->
  i <> j ->
  fst (run cs r) !! i = Some e1 ->
  fst (run cs r) !! j = Some e2 ->
  producedTree (snd (run cs r)) e1 = Some t1 ->
  producedTree (snd (run cs r)) e2 = Some t2 ->
  versionAt (snd (run cs r)) t1 = Some v1 ->
  versionAt (snd (run cs r)) t2 = Some v2 ->
  v1 < Number.max_exact \/ v2 < Number.max_exact ->
  v1 <> v2.
Proof.
  intros Hr Hij He1 He2 Ht1 Ht2 Hv1 Hv2 Hbelow.
  destruct (Nat.lt_total i j) as [Hlt | [Heq | Hgt]]; [| done |].
  - by eapply (produced_versions_differ cs r i j).
  - apply not_eq_sym.
    eapply (produced_versions_differ cs r j i); eauto. tauto.
Qed.

Lemma makeEmptyTreeState_versions_distinct_witness : (0 : Z) <> 2.
Proof.
  apply (makeEmptyTreeState_versions_distinct
           [MakeEmptyTreeState; GetNextTreeStateVersion; MakeEmptyStoreState]
           initial 0 2
           (mkEvent MakeEmptyTreeState (Some (ARef 4)) (Some 0))
           (mkEvent MakeEmptyStoreState (Some (ARef 20)) (Some 2))
           4 9 0 2);
    try reflexivity.
  - discriminate.
  - left. reflexivity.
Defined.

Lemma run_app (cs1 cs2 : list call) (r : Runtime) :
  run (cs1 ++ cs2) r =
  (fst (run cs1 r) ++ fst (run cs2 (snd (run cs1 r))),
   snd (run cs2 (snd (run cs1 r)))).
Proof.
  revert r. induction cs1 as [| c cs1 IH]; intros r.
  - cbn. by destruct (run cs2 r).
  - cbn [app]. rewrite !run_cons, IH. reflexivity.
Qed.

Lemma run_length (cs : list call) (r : Runtime) :
  length (fst (run cs r)) = length cs.
Proof.
  revert r. induction cs as [| c cs IH]; intros r; [reflexivity |].
  rewrite run_cons. cbn. by rewrite IH.
Qed.

(** Calls of the allocator alone leave the heap as it is. *)
Lemma run_replicate_allocator (n : nat) (r : Runtime) :
  0 <= nextTreeStateVersion r <= Number.max_exact ->
  snd (run (replicate n GetNextTreeStateVersion) r) =
  {| nextTreeStateVersion := counter_after (nextTreeStateVersion r) n;
     heap := heap r |}.
Proof.
  revert r. induction n as [| n IH]; intros r Hr.
  - cbn. rewrite counter_after_0 by done. by destruct r.
  - cbn [replicate]. rewrite run_cons. cbn [snd perform].
    unfold bind, ret. rewrite getNextTreeStateVersion_run. cbn [after].
    rewrite IH; cbn [nextTreeStateVersion heap]; [| by apply Number_add_range].
    by rewrite counter_after_S.
Qed.

Lemma versions_repeat_after (n : nat) :
  Number.max_exact <= Z.of_nat n ->
  let cs := replicate n GetNextTreeStateVersion
            ++ [MakeEmptyTreeState; MakeEmptyTreeState] in
  ~ (forall (i j : nat) (e1 e2 : event) (t1 t2 : nat) (v1 v2 : Z),
       i <> j ->
       fst (run cs initial) !! i = Some e1 ->
       fst (run cs initial) !! j = Some e2 ->
       producedTree (snd (run cs initial)) e1 = Some t1 ->
       producedTree (snd (run cs initial)) e2 = Some t2 ->
       versionAt (snd (run cs initial)) t1 = Some v1 ->
       versionAt (snd (run cs initial)) t2 = Some v2 ->
       v1 <> v2).
Proof.
  intros Hn cs Hclaim. pose proof max_exact_pos as Hpos.
  assert (run cs initial
          = (fst (run (replicate n GetNextTreeStateVersion) initial)
               ++ fst (run [MakeEmptyTreeState; MakeEmptyTreeState]
                         {| nextTreeStateVersion := Number.max_exact;
                            heap := [] |}),
             snd (run [MakeEmptyTreeState; MakeEmptyTreeState]
                    {| nextTreeStateVersion := Number.max_exact;
                       heap := [] |}))) as Hrun.
  { unfold cs. rewrite run_app, run_replicate_allocator by (cbn; lia).
    cbn [initial nextTreeStateVersion heap].
    rewrite counter_after_stuck; [done | lia]. }
  assert (length (fst (run (replicate n GetNextTreeStateVersion) initial)) = n)
    as Hlen by (by rewrite run_length, length_replicate).
  apply (Hclaim n (S n)
           (mkEvent MakeEmptyTreeState (Some (ARef 4)) (Some Number.max_exact))
           (mkEvent MakeEmptyTreeState (Some (ARef 9)) (Some Number.max_exact))
           4%nat 9%nat Number.max_exact Number.max_exact).
  - lia.
  - rewrite Hrun. cbn [fst]. rewrite <- Hlen at 1. by rewrite lookup_fresh_0.
  - rewrite Hrun. cbn [fst].
    replace (S n) with (length (fst (run (replicate n GetNextTreeStateVersion)
                                       initial)) + 1)%nat by lia.
    by rewrite lookup_fresh.
  - reflexivity.
  - reflexivity.
  - rewrite Hrun. reflexivity.
  - rewrite Hrun. reflexivity.
  - reflexivity.
Qed.

(** C5, as stated, fails: after 2^53 calls of the allocator the counter is
    2^53 and stays there, so the next two calls of [makeEmptyTreeState]
    produce two tree states that both carry version 2^53. *)
Lemma makeEmptyTreeState_versions_repeat :
  let cs := replicate (Z.to_nat Number.max_exact) GetNextTreeStateVersion
            ++ [MakeEmptyTreeState; MakeEmptyTreeState] in
  ~ (forall (i j : nat) (e1 e2 : event) (t1 t2 : nat) (v1 v2 : Z),
       i <> j ->
       fst (run cs initial) !! i = Some e1 ->
       fst (run cs initial) !! j = Some e2 ->
       producedTree (snd (run cs initial)) e1 = Some t1 ->
       producedTree (snd (run cs initial)) e2 = Some t2 ->
       versionAt (snd (run cs initial)) t1 = Some v1 ->
       versionAt (snd (run cs initial)) t2 = Some v2 ->
       v1 <> v2).
Proof.
  apply (versions_repeat_after (Z.to_nat Number.max_exact)).
  rewrite Z2Nat.id; [apply Z.le_refl | apply Z.lt_le_incl, max_exact_pos].
Qed.

(** C4, as amended.  In any runtime that call sequences reach from the
    origin, [makeEmptyTreeState] returns a new tree state whose
    [dirtyAtoms] is an empty Set, whose [atomValues] and [nonvalidatedAtoms]
    are empty Maps and whose [transactionMetadata] is an empty object.  Its
    version is the number of versions issued so far, capped at 2^53: it is
    strictly greater than every version issued before, unless that one was
    2^53 already, and then it is 2^53 again.  The counter becomes the
    version plus one, capped at 2^53.  Nothing else happens: the objects that
    existed keep their contents, and the only new objects are the tree state
    and its four fields. *)
Theorem makeEmptyTreeState_fresh_below_max_exact
  (cs : list call) (r0 : Runtime) :
  nextTreeStateVersion r0 = 0 ->
  let r := snd (run cs r0) in
  exists (t : nat) (r' : Runtime) (ts : TreeState),
    makeEmptyTreeState r = Ok t r' /\
    heap r !! t = None /\
    treeStateAt r' t = Some ts /\
    heap r' !! dirtyAtoms ts = Some (CSet []) /\
    heap r' !! atomValues ts = Some (CMap []) /\
    heap r' !! nonvalidatedAtoms ts = Some (CMap []) /\
    heap r' !! transactionMetadata ts = Some (CObject []) /\
    version ts = Z.min (Z.of_nat (length (versions cs r0))) Number.max_exact /\
    (forall v : Z,
       v ∈ versions cs r0 ->
       v < version ts \/ (v = version ts /\ v = Number.max_exact)) /\
    nextTreeStateVersion r' = Z.min (version ts + 1) Number.max_exact /\
    extends r r' /\
    length (heap r') = (length (heap r) + 5)%nat.
Proof.
  intros Hr0 r. pose proof max_exact_pos as Hpos.
  assert (0 <= nextTreeStateVersion r0 <= Number.max_exact) as Hrange by lia.
  assert (length (versions cs r0) = allocations cs) as Hlen.
  { rewrite versions_closed_form by done. by rewrite length_fmap, length_seq. }
  assert (nextTreeStateVersion r
          = Z.min (Z.of_nat (allocations cs)) Number.max_exact) as Hr.
  { unfold r. rewrite run_counter by done. rewrite Hr0. unfold counter_after.
    lia. }
  rewrite makeEmptyTreeState_run. cbv zeta.
  eexists _, _, _. split; [reflexivity |].
  unfold treeStateAt, extends. cbn [heap nextTreeStateVersion].
  split; [apply lookup_ge_None; lia |].
  split; [by rewrite lookup_fresh |].
  cbn [dirtyAtoms atomValues nonvalidatedAtoms transactionMetadata version].
  rewrite !lookup_fresh, lookup_fresh_0, length_app, Hlen.
  do 4 (split; [reflexivity |]).
  split; [exact Hr |].
  split.
  { intros v Hv. apply list_elem_of_lookup in Hv as [k Hk].
    apply (versions_lookup _ _ _ _ Hrange) in Hk as [Hlt ->].
    rewrite Hr, Hr0. unfold counter_after. lia. }
  split.
  { rewrite Hr.
    destruct (Z.le_gt_cases Number.max_exact (Z.of_nat (allocations cs))).
    - rewrite Z.min_r by lia. rewrite Number_add_stuck. lia.
    - rewrite Z.min_l by lia. rewrite Number_add_exact by lia. lia. }
  split; [by eexists | reflexivity].
Qed.

Lemma makeEmptyTreeState_fresh_below_max_exact_witness :
  let r := snd (run [GetNextTreeStateVersion; MakeEmptyStoreState] initial) in
  exists (t : nat) (r' : Runtime) (ts : TreeState),
    makeEmptyTreeState r = Ok t r' /\
    heap r !! t = None /\
    treeStateAt r' t = Some ts /\
    heap r' !! dirtyAtoms ts = Some (CSet []) /\
    heap r' !! atomValues ts = Some (CMap []) /\
    heap r' !! nonvalidatedAtoms ts = Some (CMap []) /\
    heap r' !! transactionMetadata ts = Some (CObject []) /\
    version ts
    = Z.min (Z.of_nat (length (versions [GetNextTreeStateVersion;
                                         MakeEmptyStoreState] initial)))
            Number.max_exact /\
    (forall v : Z,
       v ∈ versions [GetNextTreeStateVersion; MakeEmptyStoreState] initial ->
       v < version ts \/ (v = version ts /\ v = Number.max_exact)) /\
    nextTreeStateVersion r' = Z.min (version ts + 1) Number.max_exact /\
    extends r r' /\
    length (heap r') = (length (heap r) + 5)%nat.
Proof.
  apply (makeEmptyTreeState_fresh_below_max_exact
           [GetNextTreeStateVersion; MakeEmptyStoreState] initial).
  reflexivity.
Defined.

Lemma makeEmptyTreeState_after_many (n : nat) :
  Number.max_exact < Z.of_nat n ->
  let cs := replicate n GetNextTreeStateVersion in
  let r := snd (run cs initial) in
  exists (t : nat) (r' : Runtime) (ts : TreeState),
    makeEmptyTreeState r = Ok t r' /\
    treeStateAt r' t = Some ts /\
    version ts ∈ versions cs initial /\
    nextTreeStateVersion r' = nextTreeStateVersion r.
Proof.
  intros Hn cs r. pose proof max_exact_pos as Hpos.
  assert (r = {| nextTreeStateVersion := Number.max_exact; heap := [] |}) as ->.
  { unfold r, cs. rewrite run_replicate_allocator by (cbn; lia).
    cbn [initial nextTreeStateVersion heap].
    rewrite counter_after_stuck; [done | lia]. }
  rewrite makeEmptyTreeState_run. cbv zeta.
  eexists _, _, _. split; [reflexivity |].
  split; [reflexivity |].
  cbn [version nextTreeStateVersion]. split; [| apply Number_add_stuck].
  apply (list_elem_of_lookup_2 _ (n - 1)).
  apply versions_replicate_stuck; lia.
Qed.

(** C4, as stated, fails: after 2^53 + 1 calls of the allocator the counter
    is 2^53 and the version 2^53 has been issued; the tree state that
    [makeEmptyTreeState] returns then carries that same version, and the
    call does not advance the counter. *)
Lemma makeEmptyTreeState_not_fresh :
  let cs := replicate (Z.to_nat (Number.max_exact + 1)) GetNextTreeStateVersion in
  let r := snd (run cs initial) in
  exists (t : nat) (r' : Runtime) (ts : TreeState),
    makeEmptyTreeState r = Ok t r' /\
    treeStateAt r' t = Some ts /\
    version ts ∈ versions cs initial /\
    nextTreeStateVersion r' = nextTreeStateVersion r.
Proof.
  apply (makeEmptyTreeState_after_many (Z.to_nat (Number.max_exact + 1))).
  rewrite Z2Nat.id; [apply Z.lt_succ_diag_r |].
  apply Z.lt_le_incl, Z.lt_lt_succ_r, max_exact_pos.
Qed.

(** ** The store invariant *)

Lemma quiet_refl (r : Runtime) : quiet r r.
Proof. by split. Qed.

Lemma quiet_trans (r1 r2 r3 : Runtime) :
  quiet r1 r2 -> quiet r2 r3 -> quiet r1 r3.
Proof. intros [T12 S12] [T23 S23]. split; eauto. Qed.

Lemma extends_quiet (r r' : Runtime) : extends r r' -> quiet r r'.
Proof.
  intros Hext. split; intros l x.
  - by apply extends_treeStateAt.
  - by apply extends_storeStateAt.
Qed.

(** Overwriting an object that is neither a tree state nor a store state,
    with any object, is quiet. *)
Lemma write_plain_quiet (r : Runtime) (l : nat) (c0 c : cell) :
  heap r !! l = Some c0 -> plain c0 -> quiet r (after (write l c r)).
Proof.
  intros Hl Hplain. unfold quiet, write, treeStateAt, storeStateAt.
  cbn [after heap].
  split; intros l' x Hx; cbn [heap].
  - destruct (decide (l = l')) as [Heq | Hne].
    + subst l'. rewrite Hl in Hx. by destruct c0.
    + by rewrite list_lookup_insert_ne.
  - destruct (decide (l = l')) as [Heq | Hne].
    + subst l'. rewrite Hl in Hx. by destruct c0.
    + by rewrite list_lookup_insert_ne.
Qed.

Lemma Quiet_ret {A} (a : A) : Quiet (ret a).
Proof. intros r. apply quiet_refl. Qed.

Lemma Quiet_throw {A} (e : error) : Quiet (@throw A e).
Proof. intros r. apply quiet_refl. Qed.

Lemma Quiet_bind {A B} (m : M A) (k : A -> M B) :
  Quiet m -> (forall a, Quiet (k a)) -> Quiet (bind m k).
Proof.
  intros Hm Hk r. unfold bind. specialize (Hm r).
  destruct (m r) as [a r1 | e r1]; cbn [after] in *; [| done].
  eapply quiet_trans; [exact Hm | apply Hk].
Qed.

Lemma Quiet_alloc (c : cell) : Quiet (alloc c).
Proof.
  intros r. apply extends_quiet. unfold extends, alloc. cbn. by eexists.
Qed.

Lemma Quiet_read (l : nat) : Quiet (read l).
Proof. intros r. unfold read. destruct (heap r !! l); apply quiet_refl. Qed.

Lemma Quiet_getNextTreeStateVersion : Quiet getNextTreeStateVersion.
Proof. intros r. by split. Qed.

Create HintDb quiet.

#[local] Hint Resolve Quiet_ret Quiet_throw Quiet_alloc Quiet_read
  Quiet_getNextTreeStateVersion : quiet.

Ltac quiet_auto :=
  repeat first
    [ progress eauto with quiet
    | apply Quiet_bind; [| intros ?]
    | match goal with
      | |- Quiet (match ?x with _ => _ end) => destruct x
      | |- Quiet (let '(_, _) := ?x in _) => destruct x
      end ].

Lemma Quiet_readTreeState (l : nat) : Quiet (readTreeState l).
Proof. unfold readTreeState. quiet_auto. Qed.

Lemma Quiet_readStoreState (l : nat) : Quiet (readStoreState l).
Proof. unfold readStoreState. quiet_auto. Qed.

Lemma Quiet_readMap (l : nat) : Quiet (readMap l).
Proof. unfold readMap. quiet_auto. Qed.

Lemma Quiet_readSet (l : nat) : Quiet (readSet l).
Proof. unfold readSet. quiet_auto. Qed.

Lemma Quiet_readArray (l : nat) : Quiet (readArray l).
Proof. unfold readArray. quiet_auto. Qed.

Lemma Quiet_readObject (l : nat) : Quiet (readObject l).
Proof. unfold readObject. quiet_auto. Qed.

Lemma Quiet_readGraph (l : nat) : Quiet (readGraph l).
Proof. unfold readGraph. quiet_auto. Qed.

Lemma Quiet_mapUpdate (m : nat) (f : list (value * value) -> list (value * value)) :
  Quiet (mapUpdate m f).
Proof.
  intros r. unfold mapUpdate, readMap, bind, read.
  destruct (heap r !! m) as [c |] eqn:E; [| apply quiet_refl].
  destruct c; try apply quiet_refl.
  by eapply write_plain_quiet.
Qed.

Lemma Quiet_arrayUpdate (a : nat) (f : list value -> list value) :
  Quiet (arrayUpdate a f).
Proof.
  intros r. unfold arrayUpdate, readArray, bind, read.
  destruct (heap r !! a) as [c |] eqn:E; [| apply quiet_refl].
  destruct c; try apply quiet_refl.
  by eapply write_plain_quiet.
Qed.

Lemma Quiet_mapSet (m : nat) (k v : value) : Quiet (mapSet m k v).
Proof.
  intros r. unfold mapSet, readMap, bind, read, ret.
  destruct (heap r !! m) as [c |] eqn:E; [| apply quiet_refl].
  destruct c; try apply quiet_refl.
  cbn [after]. by eapply (write_plain_quiet r m _ _ E).
Qed.

Lemma Quiet_mapM {A B} (f : A -> M B) (l : list A) :
  (forall x, Quiet (f x)) -> Quiet (mapM f l).
Proof. intros Hf. induction l as [| x l IH]; cbn [mapM]; quiet_auto. Qed.

#[local] Hint Resolve Quiet_readTreeState Quiet_readStoreState Quiet_readMap
  Quiet_readSet Quiet_readArray Quiet_readObject Quiet_readGraph
  Quiet_mapUpdate Quiet_arrayUpdate Quiet_mapSet : quiet.

Lemma Quiet_getState (store : nat) : Quiet (Store.getState store).
Proof. unfold Store.getState. quiet_auto. Qed.

Lemma Quiet_getGraph (store : nat) (v : Z) : Quiet (Store.getGraph store v).
Proof. unfold Store.getGraph. quiet_auto. Qed.

Lemma Quiet_subscribeToTransactions
  (store : nat) (handle : Z) (callback : value) (node : option string) :
  Quiet (Store.subscribeToTransactions store handle callback node).
Proof. unfold Store.subscribeToTransactions. quiet_auto. Qed.

Lemma Quiet_release (store : nat) (c : Store.capability) :
  Quiet (Store.release store c).
Proof. unfold Store.release. quiet_auto. Qed.

Lemma Quiet_subscribers (store : nat) (node : value) :
  Quiet (Store.subscribers store node).
Proof.
  unfold Store.subscribers. quiet_auto.
  apply Quiet_mapM. intros [component subscription]. quiet_auto.
Qed.

Lemma Quiet_fireNodeSubscriptions
  (store : nat) (updatedNodes : list value) (w : Store.when) :
  Quiet (Store.fireNodeSubscriptions store updatedNodes w).
Proof.
  unfold Store.fireNodeSubscriptions. quiet_auto.
  apply Quiet_mapM. intros node. apply Quiet_subscribers.
Qed.

(** *** Rules for triples *)

Lemma triple_bind {A B} (P : Runtime -> Prop) (m : M A) (k : A -> M B)
  (Q : A -> Runtime -> Prop) (R : B -> Runtime -> Prop) (E : Runtime -> Prop) :
  triple P m Q E -> (forall a, triple (Q a) (k a) R E) ->
  triple P (bind m k) R E.
Proof.
  intros Hm Hk r HP. unfold bind. specialize (Hm r HP).
  destruct (m r) as [a r1 | e r1]; [by apply Hk | done].
Qed.

Lemma triple_ret {A} (P : Runtime -> Prop) (a : A)
  (Q : A -> Runtime -> Prop) (E : Runtime -> Prop) :
  (forall r, P r -> Q a r) -> triple P (ret a) Q E.
Proof. intros H r HP. by apply H. Qed.

Lemma triple_throw {A} (P : Runtime -> Prop) (e : error)
  (Q : A -> Runtime -> Prop) (E : Runtime -> Prop) :
  (forall r, P r -> E r) -> triple P (throw e) Q E.
Proof. intros H r HP. by apply H. Qed.

Lemma triple_quiet {A} (P : Runtime -> Prop) (m : M A) (E : Runtime -> Prop) :
  Quiet m -> stable P -> (forall r, P r -> E r) ->
  triple P m (fun _ r => P r) E.
Proof.
  intros Hm HP HE r Hr. specialize (Hm r).
  destruct (m r) as [a r1 | e r1]; cbn [after] in Hm; eauto.
Qed.

Lemma triple_readStoreState (P : Runtime -> Prop) (l : nat) (E : Runtime -> Prop) :
  (forall r, P r -> E r) ->
  triple P (readStoreState l) (fun st r => P r /\ storeStateAt r l = Some st) E.
Proof.
  intros HE r Hr. unfold readStoreState, bind, read, storeStateAt, ret, throw.
  destruct (heap r !! l) as [[] |] eqn:Hl; rewrite ?Hl; auto.
Qed.

Lemma triple_readTreeState (P : Runtime -> Prop) (l : nat) (E : Runtime -> Prop) :
  (forall r, P r -> E r) ->
  triple P (readTreeState l) (fun t r => P r /\ treeStateAt r l = Some t) E.
Proof.
  intros HE r Hr. unfold readTreeState, bind, read, treeStateAt, ret, throw.
  destruct (heap r !! l) as [[] |] eqn:Hl; rewrite ?Hl; auto.
Qed.

Lemma triple_alloc_treeState (P : Runtime -> Prop) (t : TreeState)
  (E : Runtime -> Prop) :
  stable P ->
  triple P (alloc (CTreeState t))
         (fun n r => P r /\ treeStateAt r n = Some t) E.
Proof.
  intros HP r Hr. cbn. split.
  - eapply HP; [| exact Hr]. apply (Quiet_alloc (CTreeState t) r).
  - unfold treeStateAt. cbn. by rewrite lookup_fresh_0.
Qed.

Lemma stable_and (P Q : Runtime -> Prop) :
  stable P -> stable Q -> stable (fun r => P r /\ Q r).
Proof. intros HP HQ r r' Hq [? ?]. split; eauto. Qed.

Lemma stable_treeStateAt (l : nat) (t : TreeState) :
  stable (fun r => treeStateAt r l = Some t).
Proof. intros r r' [HT _]. apply HT. Qed.

Lemma stable_storeStateAt (l : nat) (s : StoreState) :
  stable (fun r => storeStateAt r l = Some s).
Proof. intros r r' [_ HS]. apply HS. Qed.

Lemma stable_nextTreeNewer (store : nat) :
  stable (fun r => nextTreeNewer r store).
Proof.
  intros r r' [HT HS] (st & cur & Hst & Hcur & Hnext).
  exists st, cur. split; [by apply HS |]. split; [by apply HT |].
  destruct (nextTree st) as [n |]; [| done].
  destruct Hnext as (nt & Hnt & Hlt). exists nt. split; [by apply HT | done].
Qed.

#[local] Hint Resolve stable_and stable_treeStateAt stable_storeStateAt
  stable_nextTreeNewer : quiet.

(** Assigning the two tree slots of a store state. *)
Lemma write_storeState (r : Runtime) (s : nat) (st st' : StoreState) :
  storeStateAt r s = Some st ->
  let r' := after (write s (CStoreState st') r) in
  storeStateAt r' s = Some st' /\
  (forall l x, treeStateAt r l = Some x -> treeStateAt r' l = Some x) /\
  (forall l x, l <> s -> storeStateAt r l = Some x -> storeStateAt r' l = Some x).
Proof.
  unfold storeStateAt, treeStateAt, write. cbn [after heap]. intros Hs.
  destruct (heap r !! s) as [c |] eqn:E; [| discriminate].
  split; [| split].
  - rewrite list_lookup_insert_eq; [done | by eapply lookup_lt_Some].
  - intros l x Hx. destruct (decide (s = l)) as [Heq | Hne].
    + subst l. rewrite E in Hx. by destruct c.
    + by rewrite list_lookup_insert_ne.
  - intros l x Hne Hx. by rewrite list_lookup_insert_ne.
Qed.

Lemma setTrees_nextTreeNewer
  (r : Runtime) (store s : nat) (st : StoreState) (c : nat) (n : option nat) :
  nextTreeNewer r store ->
  storeStateAt r s = Some st ->
  (store = s ->
   exists cur,
     treeStateAt r c = Some cur /\
     match n with
     | None => True
     | Some n' =>
         exists nt, treeStateAt r n' = Some nt /\ version cur < version nt
     end) ->
  nextTreeNewer (after (write s (CStoreState (setTrees c n st)) r)) store.
Proof.
  intros (st0 & cur0 & Hst0 & Hcur0 & Hnext0) Hst Hsame.
  destruct (write_storeState r s st (setTrees c n st) Hst) as (Hnew & HT & HS).
  destruct (decide (store = s)) as [Heq | Hne].
  - destruct (Hsame Heq) as (cur & Hcur & Hn). subst s.
    exists (setTrees c n st), cur. split; [exact Hnew |].
    cbn [setTrees currentTree nextTree]. split; [by apply HT |].
    destruct n as [n' |]; [| done].
    destruct Hn as (nt & Hnt & Hlt). exists nt. split; [by apply HT | done].
  - exists st0, cur0. split; [by apply HS |]. split; [by apply HT |].
    destruct (nextTree st0) as [n0 |]; [| done].
    destruct Hnext0 as (nt & Hnt & Hlt). exists nt.
    split; [by apply HT | done].
Qed.

Section Preservation.

Variable deriveGraph :
  list (string * string) -> list value -> list (string * string).
Variable stillRead : value -> value -> bool.
Variable store : nat.

Lemma replaceState_preserves (s : nat) (update : TreeState -> TreeState) :
  triple (fun r => nextTreeNewer r store)
         (Store.replaceState deriveGraph s update)
         (fun _ r => nextTreeNewer r store)
         (fun r => nextTreeNewer r store).
Proof.
  unfold Store.replaceState.
  eapply triple_bind; [by apply triple_readStoreState | intros st].
  eapply triple_bind; [apply triple_readTreeState; tauto | intros cur].
  eapply triple_bind; [apply triple_readTreeState; tauto | intros base].
  eapply triple_bind;
    [apply triple_quiet; [auto with quiet | auto 10 with quiet | tauto] |
     intros v].
  destruct (version cur <? v) eqn:Hlt; [| apply triple_throw; tauto].
  apply Z.ltb_lt in Hlt.
  do 5 (eapply triple_bind;
        [apply triple_quiet;
         [auto using Quiet_getGraph with quiet | auto 10 with quiet | tauto] |
         intros ?]).
  eapply triple_bind;
    [apply triple_alloc_treeState; auto 10 with quiet | intros n].
  intros r ((((HI & Hst) & Hcur) & _) & Hn).
  change (write s ?c r) with (Ok tt (after (write s c r))). cbn beta iota.
  eapply setTrees_nextTreeNewer; [done | done |].
  intros _. exists cur. split; [done |].
  eexists. split; [exact Hn | done].
Qed.

Lemma commit_preserves (s : nat) :
  triple (fun r => nextTreeNewer r store)
         (Store.commit stillRead s)
         (fun _ r => nextTreeNewer r store)
         (fun r => nextTreeNewer r store).
Proof.
  unfold Store.commit.
  eapply triple_bind; [by apply triple_readStoreState | intros st].
  destruct (nextTree st) as [n |] eqn:Hnext; [| apply triple_ret; tauto].
  eapply triple_bind with (Q := fun _ r => nextTreeNewer r store).
  - intros r [HI Hst].
    change (write s ?c r) with (Ok tt (after (write s c r))). cbn beta iota.
    eapply setTrees_nextTreeNewer; [done | done |].
    intros Heq. subst s.
    destruct HI as (st0 & cur0 & Hst0 & Hcur0 & Hnext0).
    rewrite Hst in Hst0. injection Hst0 as <-. rewrite Hnext in Hnext0.
    destruct Hnext0 as (nt & Hnt & _). eauto.
  - intros _.
    do 4 (eapply triple_bind;
          [apply triple_quiet; [auto with quiet | auto with quiet | tauto] |
           intros ?]).
    apply triple_ret. tauto.
Qed.

Lemma addTransactionMetadata_preserves
  (s : nat) (fields : list (string * value)) :
  triple (fun r => nextTreeNewer r store)
         (Store.addTransactionMetadata deriveGraph s fields)
         (fun _ r => nextTreeNewer r store)
         (fun r => nextTreeNewer r store).
Proof.
  unfold Store.addTransactionMetadata.
  do 4 (eapply triple_bind;
        [apply triple_quiet;
         [auto with quiet | auto with quiet | tauto] |
         intros ?]).
  apply replaceState_preserves.
Qed.

Lemma exec_preserves (s : nat) (op : Store.operation) (r : Runtime) :
  nextTreeNewer r store ->
  nextTreeNewer (after (Store.exec deriveGraph stillRead s op r)) store.
Proof.
  intros HI.
  assert (triple (fun r => nextTreeNewer r store)
                 (Store.exec deriveGraph stillRead s op)
                 (fun _ r => nextTreeNewer r store)
                 (fun r => nextTreeNewer r store)) as Hop.
  { destruct op as [| v | update | | handle callback node | c | fields
                   | updatedNodes w]; cbn [Store.exec].
    - apply triple_quiet; [| auto with quiet | tauto].
      apply Quiet_bind; [apply Quiet_getState | auto with quiet].
    - apply triple_quiet; [| auto with quiet | tauto].
      apply Quiet_bind; [apply Quiet_getGraph | auto with quiet].
    - apply replaceState_preserves.
    - eapply triple_bind; [apply commit_preserves | intros ?].
      apply triple_ret. tauto.
    - apply triple_quiet; [| auto with quiet | tauto].
      apply Quiet_bind;
        [apply Quiet_subscribeToTransactions | auto with quiet].
    - apply triple_quiet; [| auto with quiet | tauto].
      apply Quiet_release.
    - apply addTransactionMetadata_preserves.
    - apply triple_quiet; [| auto with quiet | tauto].
      apply Quiet_bind;
        [apply Quiet_fireNodeSubscriptions | auto with quiet]. }
  specialize (Hop r HI).
  by destruct (Store.exec deriveGraph stillRead s op r).
Qed.

End Preservation.

Lemma makeStoreState_nextTreeNewer
  (r r' : Runtime) (t store : nat) (ts : TreeState) :
  treeStateAt r t = Some ts ->
  makeStoreState t r = Ok store r' -> nextTreeNewer r' store.
Proof.
  intros Hts. rewrite (makeStoreState_run _ _ _ Hts). cbv zeta.
  intros [= <- <-].
  eexists _, ts. unfold storeStateAt. cbn [heap]. rewrite lookup_fresh.
  split; [reflexivity |]. cbn [currentTree nextTree]. split; [| done].
  eapply extends_treeStateAt; [| exact Hts]. unfold extends. cbn. by eexists.
Qed.

Lemma makeEmptyStoreState_nextTreeNewer (r r' : Runtime) (store : nat) :
  makeEmptyStoreState r = Ok store r' -> nextTreeNewer r' store.
Proof.
  unfold makeEmptyStoreState, bind.
  rewrite makeEmptyTreeState_run. cbv beta iota zeta.
  apply (makeStoreState_nextTreeNewer _ _ _ _
           {| version := nextTreeStateVersion r;
              transactionMetadata := length (heap r);
              dirtyAtoms := (length (heap r) + 1)%nat;
              atomValues := (length (heap r) + 2)%nat;
              nonvalidatedAtoms := (length (heap r) + 3)%nat |}).
  unfold treeStateAt. cbn [heap]. by rewrite lookup_fresh.
Qed.

(** C6.  In every runtime in which a store state can be found (made by
    [makeStoreState] or [makeEmptyStoreState], then any calls of the exports
    of this module and any operations of the store protocol, on this store or
    on others), its pending tree, when there is one, has a version strictly
    greater than that of its current tree. *)
Theorem nextTree_newer_than_currentTree
  (deriveGraph : list (string * string) -> list value -> list (string * string))
  (stillRead : value -> value -> bool) (store : nat) (r : Runtime) :
  Store.reachable deriveGraph stillRead store r ->
  nextTreeNewer r store.
Proof.
  induction 1 as [r r' t ts Hts Hmake | r r' Hmake | r c _ IH
                 | r other op _ IH].
  - by eapply makeStoreState_nextTreeNewer.
  - by eapply makeEmptyStoreState_nextTreeNewer.
  - eapply stable_nextTreeNewer; [| exact IH].
    apply extends_quiet, perform_extends.
  - by apply exec_preserves.
Qed.

(** A store that has a pending tree: made in the initial runtime (at
    reference 15), then one [replaceState] and one [addTransactionMetadata];
    its current tree has version 0 and its pending tree version 2. *)
Lemma nextTree_newer_than_currentTree_witness :
  nextTreeNewer
    (after (Store.exec (fun edges _ => edges) (fun _ _ => true) 15
              (Store.AddTransactionMetadata [("reason", VString "test")])
              (after (Store.exec (fun edges _ => edges) (fun _ _ => true) 15
                        (Store.ReplaceState (fun t => t))
                        (after (makeEmptyStoreState initial))))))
    15.
Proof.
  apply (nextTree_newer_than_currentTree
           (fun edges _ => edges) (fun _ _ => true)).
  apply Store.reach_operation, Store.reach_operation.
  apply (Store.reach_makeEmptyStoreState _ _ 15 initial).
  reflexivity.
Defined.

(** ** Further properties of the allocator *)

(** X1.  One call of [getNextTreeStateVersion], with the counter anywhere in
    the range it can reach: it returns the counter, leaves the heap alone and
    stores [min (counter + 1) 2^53]; once the counter is 2^53 a call changes
    nothing at all. *)
Theorem getNextTreeStateVersion_step (r : Runtime) :
  0 <= nextTreeStateVersion r <= Number.max_exact ->
  exists r' : Runtime,
    getNextTreeStateVersion r = Ok (nextTreeStateVersion r) r' /\
    heap r' = heap r /\
    nextTreeStateVersion r'
      = Z.min (nextTreeStateVersion r + 1) Number.max_exact /\
    (nextTreeStateVersion r = Number.max_exact -> r' = r).
Proof.
  intros Hr. rewrite getNextTreeStateVersion_run. eexists.
  split; [reflexivity |]. cbn [heap nextTreeStateVersion].
  split; [reflexivity |].
  destruct (Z.eq_dec (nextTreeStateVersion r) Number.max_exact) as [Heq | Hne].
  - rewrite Heq, Number_add_stuck. split; [lia |].
    intros _. destruct r as [c h]. cbn in Heq. by subst c.
  - rewrite Number_add_exact by lia. split; [lia | done].
Qed.

Lemma getNextTreeStateVersion_step_witness :
  exists r' : Runtime,
    getNextTreeStateVersion (mkRuntime Number.max_exact [CSet []])
      = Ok Number.max_exact r' /\
    heap r' = [CSet []] /\
    nextTreeStateVersion r' = Z.min (Number.max_exact + 1) Number.max_exact /\
    (Number.max_exact = Number.max_exact ->
     r' = mkRuntime Number.max_exact [CSet []]).
Proof.
  apply (getNextTreeStateVersion_step (mkRuntime Number.max_exact [CSet []])).
  cbn. split; [apply Z.lt_le_incl, max_exact_pos | apply Z.le_refl].
Defined.

(** Every integer from 0 to 2^53 is a binary64 value and is read back from
    it. *)
Lemma to_binary64_exact (n : Z) :
  0 <= n <= Number.max_exact ->
  binary64_integer (Number.to_binary64 n) = Some n.
Proof.
  intros Hn. change Number.max_exact with (2 ^ 53) in Hn.
  destruct (Z.eq_dec n (2 ^ 53)) as [-> | Hne]; [reflexivity |].
  destruct n as [| p | p]; [reflexivity | | lia].
  assert (Pos.size p <= 53)%positive as Hsize by (apply size_le_53; lia).
  unfold Number.to_binary64, binary_normalize.
  destruct (Pos.eq_dec (Pos.size p) 53%positive) as [H53 | Hlt].
  - rewrite binary_round_exact53 by (assumption || lia).
    cbn [binary64_integer]. cbn. f_equal. lia.
  - assert (exists j, (Pos.size p + j = 53)%positive) as [j Hj].
    { exists (53 - Pos.size p)%positive. lia. }
    rewrite (binary_round_short p j 0 Hj) by lia.
    unfold binary64_integer.
    destruct (Z.leb_spec 0 (0 - Zpos j)) as [| _]; [lia |].
    replace (- (0 - Zpos j)) with (Zpos j) by lia.
    rewrite iter_xO_mul, Pos2Z.inj_mul, Pos2Z.inj_pow.
    rewrite Z.mod_mul by lia. cbn [Z.eqb fmap option_fmap option_map].
    rewrite Z.div_mul by lia. reflexivity.
Qed.

(** X2.  The counter that [getNextTreeStateVersion] stores is the integer
    that the IEEE 754 binary64 sum of the old counter and 1 denotes, for
    every value that the counter can hold; the old counter and 1 are
    themselves binary64 values. *)
Theorem getNextTreeStateVersion_binary64 (r : Runtime) :
  0 <= nextTreeStateVersion r <= Number.max_exact ->
  binary64_integer (Number.to_binary64 (nextTreeStateVersion r))
  = Some (nextTreeStateVersion r) /\
  binary64_integer (Number.to_binary64 1) = Some 1 /\
  binary64_integer
    (Number.binary64_add (Number.to_binary64 (nextTreeStateVersion r))
                         (Number.to_binary64 1))
  = Some (nextTreeStateVersion (after (getNextTreeStateVersion r))).
Proof.
  intros Hr. split; [by apply to_binary64_exact |]. split; [reflexivity |].
  rewrite getNextTreeStateVersion_run. cbn [after nextTreeStateVersion].
  rewrite Number_add_is_binary64_add by done.
  apply to_binary64_exact. by apply Number_add_range.
Qed.

Lemma getNextTreeStateVersion_binary64_witness :
  binary64_integer (Number.to_binary64 (2 ^ 53)) = Some (2 ^ 53) /\
  binary64_integer (Number.to_binary64 1) = Some 1 /\
  binary64_integer
    (Number.binary64_add (Number.to_binary64 (2 ^ 53)) (Number.to_binary64 1))
  = Some (nextTreeStateVersion
            (after (getNextTreeStateVersion (mkRuntime (2 ^ 53) [])))).
Proof.
  apply (getNextTreeStateVersion_binary64 (mkRuntime (2 ^ 53) [])).
  cbn. split; discriminate.
Defined.

(** X3.  Along every call sequence in a runtime that started at the origin,
    the versions issued never decrease, and each is an integer between 0 and
    2^53; this holds without any bound on the length of the sequence. *)
Theorem versions_never_decrease
  (cs : list call) (r : Runtime) (i j : nat) (a b : Z) :
  nextTreeStateVersion r = 0 ->
  (i <= j)%nat ->
  versions cs r !! i = Some a ->
  versions cs r !! j = Some b ->
  0 <= a /\ a <= b /\ b <= Number.max_exact.
Proof.
  intros Hr Hij Ha Hb. pose proof max_exact_pos as Hpos.
  assert (0 <= nextTreeStateVersion r <= Number.max_exact) as Hrange by lia.
  apply (versions_lookup _ _ _ _ Hrange) in Ha as [_ ->].
  apply (versions_lookup _ _ _ _ Hrange) in Hb as [_ ->].
  rewrite Hr. unfold counter_after. lia.
Qed.

Lemma versions_never_decrease_witness :
  0 <= 1 /\ 1 <= 3 /\ 3 <= Number.max_exact.
Proof.
  apply (versions_never_decrease
           [MakeEmptyStoreState; GetNextTreeStateVersion; MakeStoreState 4;
            MakeEmptyTreeState; MakeStoreState 99; GetNextTreeStateVersion]
           initial 1 3 1 3).
  - reflexivity.
  - lia.
  - reflexivity.
  - reflexivity.
Defined.

Lemma versions_counter_only (cs : list call) (r1 r2 : Runtime) :
  nextTreeStateVersion r1 = nextTreeStateVersion r2 ->
  versions cs r1 = versions cs r2.
Proof.
  revert r1 r2. induction cs as [| c cs IH]; intros r1 r2 Heq; [reflexivity |].
  rewrite !versions_cons, Heq.
  rewrite (IH (after (perform c r1)) (after (perform c r2))); [done |].
  by rewrite !perform_counter, Heq.
Qed.

(** X4.  [makeStoreState] is invisible to the allocator: dropping all its
    calls from a sequence (those that return and those that throw) leaves
    the versions issued to the other calls as they were, whatever the
    counter and the heap at the start. *)
Theorem versions_without_makeStoreState (cs : list call) (r : Runtime) :
  versions cs r = versions (List.filter allocates cs) r /\
  length (versions cs r) = allocations cs.
Proof.
  split.
  - revert r. induction cs as [| c cs IH]; intros r; [reflexivity |].
    cbn [List.filter]. rewrite versions_cons.
    pose proof (perform_counter c r) as Hc.
    destruct (allocates c) eqn:Hal.
    + rewrite versions_cons, Hal. f_equal. apply IH.
    + rewrite IH. by apply versions_counter_only.
  - revert r. induction cs as [| c cs IH]; intros r; [reflexivity |].
    rewrite versions_cons. cbn [allocations].
    destruct (allocates c); cbn [length]; by rewrite IH.
Qed.

(** ** The objects that the constructors create *)

Lemma treeObjects_extends (r1 r' : Runtime) (t : nat) (ts : TreeState) :
  extends r1 r' -> treeStateAt r1 t = Some ts ->
  treeObjects r' t
  = [t; transactionMetadata ts; dirtyAtoms ts; atomValues ts;
     nonvalidatedAtoms ts].
Proof.
  intros Hext Hts. unfold treeObjects.
  by rewrite (extends_treeStateAt _ _ _ _ Hext Hts).
Qed.

Lemma storeObjects_extends
  (r1 r' : Runtime) (s : nat) (st : StoreState) (entries : list (value * value)) :
  extends r1 r' -> storeStateAt r1 s = Some st ->
  heap r1 !! graphsByVersion st = Some (CMap entries) ->
  storeObjects r' s
  = [s; knownAtoms st; knownSelectors st; transactionSubscriptions st;
     nodeTransactionSubscriptions st; queuedComponentCallbacks st;
     suspendedComponentResolvers st; nodeToComponentSubscriptions st;
     graphsByVersion st; versionsUsedByComponent st]
    ++ mapReferences entries.
Proof.
  intros Hext Hst Hg. unfold storeObjects.
  by rewrite (extends_storeStateAt _ _ _ _ Hext Hst),
    (extends_lookup _ _ _ _ Hext Hg).
Qed.

Ltac successors :=
  rewrite ?(Nat.add_comm (length _)); cbn [Nat.add seq].

(** What a returning call created is, up to order, the whole interval of
    references that it added to the heap. *)
Lemma perform_created (c : call) (r r' : Runtime) :
  extends (after (perform c r)) r' ->
  answered (perform c r) <> None ->
  created r' {| ev_call := c;
                ev_answer := answered (perform c r);
                ev_version := issued c (perform c r) |}
  ≡ₚ seq (length (heap r))
         (length (heap (after (perform c r))) - length (heap r)).
Proof.
  unfold created, producedTree, producedStore. cbn [ev_call ev_answer].
  destruct c as [| | t |]; cbn [perform]; unfold bind, ret.
  - rewrite getNextTreeStateVersion_run. cbn [after answered heap].
    intros _ _. by rewrite Nat.sub_diag.
  - rewrite makeEmptyTreeState_run. cbv zeta. cbn [after answered heap].
    intros Hext _.
    erewrite treeObjects_extends; [| exact Hext |].
    2: { unfold treeStateAt. cbn [heap]. by rewrite lookup_fresh. }
    cbn [transactionMetadata dirtyAtoms atomValues nonvalidatedAtoms].
    rewrite length_app, Nat.add_sub'. cbn [length app].
    successors. solve_Permutation.
  - destruct (heap r !! t) as [o |] eqn:Ht.
    + rewrite (makeStoreState_returns _ _ _ Ht). cbv zeta.
      cbn [after answered heap]. intros Hext _.
      erewrite storeObjects_extends; [| exact Hext | |].
      2: { unfold storeStateAt. cbn [heap]. by rewrite lookup_fresh. }
      2: { cbn [heap graphsByVersion]. by rewrite lookup_fresh. }
      cbn [knownAtoms knownSelectors transactionSubscriptions
           nodeTransactionSubscriptions queuedComponentCallbacks
           suspendedComponentResolvers nodeToComponentSubscriptions
           graphsByVersion versionsUsedByComponent mapReferences omap
           list_omap].
      rewrite length_app, Nat.add_sub'. cbn [length app].
      successors. solve_Permutation.
    + rewrite (makeStoreState_throws _ _ Ht). cbn [answered]. by intros _ [].
  - rewrite makeEmptyStoreState_run. cbv zeta. cbn [after answered heap].
    intros Hext _.
    erewrite extends_storeStateAt; [| exact Hext |].
    2: { unfold storeStateAt. cbn [heap]. by rewrite lookup_fresh. }
    cbn [fmap option_fmap option_map currentTree].
    erewrite treeObjects_extends; [| exact Hext |].
    2: { unfold treeStateAt. cbn [heap]. by rewrite lookup_fresh. }
    erewrite storeObjects_extends; [| exact Hext | |].
    2: { unfold storeStateAt. cbn [heap]. by rewrite lookup_fresh. }
    2: { cbn [heap graphsByVersion]. by rewrite lookup_fresh. }
    cbn [transactionMetadata dirtyAtoms atomValues nonvalidatedAtoms
         knownAtoms knownSelectors transactionSubscriptions
         nodeTransactionSubscriptions queuedComponentCallbacks
         suspendedComponentResolvers nodeToComponentSubscriptions
         graphsByVersion versionsUsedByComponent mapReferences omap
         list_omap].
    rewrite length_app, Nat.add_sub'. cbn [length app].
    successors. solve_Permutation.
Qed.

Lemma created_unanswered (r : Runtime) (e : event) :
  ev_answer e = None -> created r e = [].
Proof.
  unfold created, producedTree, producedStore. intros ->.
  by destruct (ev_call e).
Qed.

Lemma extends_length (r r' : Runtime) :
  extends r r' -> (length (heap r) <= length (heap r'))%nat.
Proof. unfold extends. apply prefix_length. Qed.

Lemma perform_created_interval (c : call) (r r' : Runtime) (l : nat) :
  extends (after (perform c r)) r' ->
  l ∈ created r' {| ev_call := c;
                    ev_answer := answered (perform c r);
                    ev_version := issued c (perform c r) |} ->
  (length (heap r) <= l < length (heap (after (perform c r))))%nat.
Proof.
  intros Hext Hl.
  destruct (answered (perform c r)) as [a |] eqn:Ha.
  - rewrite <- Ha in Hl. rewrite perform_created in Hl; [| done | by rewrite Ha].
    apply elem_of_seq in Hl.
    pose proof (extends_length _ _ (perform_extends c r)). lia.
  - rewrite created_unanswered in Hl by done. by apply elem_of_nil in Hl.
Qed.

(** X5.  A constructor call that returns hands over everything it
    allocated: the objects reachable from its result (a tree state and the
    objects of its four fields; a store state, the objects of its nine
    collection fields and its graph) are, up to order, exactly the
    references that the call added to the heap.  So they are pairwise
    different objects, and none of them existed before the call. *)
Theorem constructors_create_exactly_their_result
  (c : call) (r : Runtime) (a : answer) (r1 : Runtime) :
  perform c r = Ok a r1 ->
  let objects := created r1 {| ev_call := c;
                               ev_answer := Some a;
                               ev_version := issued c (Ok a r1) |} in
  objects ≡ₚ seq (length (heap r)) (length (heap r1) - length (heap r)) /\
  NoDup objects /\
  (forall l : nat, l ∈ objects -> heap r !! l = None /\ is_Some (heap r1 !! l)).
Proof.
  intros Hc objects.
  assert (objects
          ≡ₚ seq (length (heap r)) (length (heap r1) - length (heap r)))
    as Hperm.
  { pose proof (perform_created c r r1) as H. rewrite Hc in H.
    apply H; [apply extends_refl | done]. }
  split; [exact Hperm |]. split.
  - rewrite Hperm. apply NoDup_seq.
  - intros l Hl. rewrite Hperm in Hl. apply elem_of_seq in Hl.
    pose proof (extends_length r r1) as Hlen.
    pose proof (perform_extends c r) as Hext. rewrite Hc in Hext.
    specialize (Hlen Hext).
    split; [apply lookup_ge_None; lia | apply lookup_lt_is_Some; lia].
Qed.

Lemma constructors_create_exactly_their_result_witness :
  let r := after (makeEmptyTreeState initial) in
  let r1 := after (makeStoreState 4 r) in
  let objects := created r1 {| ev_call := MakeStoreState 4;
                               ev_answer := Some (ARef 15);
                               ev_version := None |} in
  objects ≡ₚ seq 5 11 /\
  NoDup objects /\
  (forall l : nat, l ∈ objects -> heap r !! l = None /\ is_Some (heap r1 !! l)).
Proof.
  intros r r1.
  apply (constructors_create_exactly_their_result
           (MakeStoreState 4) r (ARef 15) r1).
  reflexivity.
Defined.

Lemma run_created_interval
  (cs : list call) (r : Runtime) (i : nat) (e : event) (l : nat) :
  fst (run cs r) !! i = Some e ->
  l ∈ created (snd (run cs r)) e ->
  (length (heap r) <= l < length (heap (snd (run cs r))))%nat.
Proof.
  revert r i. induction cs as [| c cs IH]; intros r i; [discriminate |].
  rewrite run_cons. cbn [fst snd].
  pose proof (extends_length _ _ (perform_extends c r)) as Hlen.
  pose proof (extends_length _ _ (run_extends cs (after (perform c r)))) as Hlen'.
  destruct i as [| i]; cbn [lookup list_lookup].
  - intros [= <-] Hl.
    apply perform_created_interval in Hl; [lia | apply run_extends].
  - intros He Hl. specialize (IH _ _ He Hl). lia.
Qed.

Lemma run_created_ordered
  (cs : list call) (r : Runtime) (i j : nat) (e1 e2 : event) (l1 l2 : nat) :
  (i < j)%nat ->
  fst (run cs r) !! i = Some e1 ->
  fst (run cs r) !! j = Some e2 ->
  l1 ∈ created (snd (run cs r)) e1 ->
  l2 ∈ created (snd (run cs r)) e2 ->
  (l1 < l2)%nat.
Proof.
  revert r i j. induction cs as [| c cs IH]; intros r i j Hij; [discriminate |].
  rewrite run_cons. cbn [fst snd].
  destruct j as [| j]; [lia |].
  destruct i as [| i]; cbn [lookup list_lookup].
  - intros [= <-] He2 Hl1 Hl2.
    apply perform_created_interval in Hl1; [| apply run_extends].
    pose proof (run_created_interval _ _ _ _ _ He2 Hl2). lia.
  - intros He1 He2 Hl1 Hl2. eapply (IH _ i j); eauto. lia.
Qed.

(** X6.  Different calls of one sequence never share an object they
    created: the tree states and store states produced by two calls are
    different objects, and so are the objects of their fields (two stores
    made from one tree state share that tree state, which neither call
    created, and nothing else). *)
Theorem created_objects_disjoint
  (cs : list call) (r : Runtime) (i j : nat) (e1 e2 : event) (l : nat) :
  i <> j ->
  fst (run cs r) !! i = Some e1 ->
  fst (run cs r) !! j = Some e2 ->
  l ∈ created (snd (run cs r)) e1 ->
  l ∉ created (snd (run cs r)) e2.
Proof.
  intros Hij He1 He2 Hl1 Hl2.
  destruct (Nat.lt_total i j) as [Hlt | [Heq | Hgt]]; [| done |].
  - pose proof (run_created_ordered cs r i j e1 e2 l l Hlt He1 He2 Hl1 Hl2). lia.
  - pose proof (run_created_ordered cs r j i e2 e1 l l Hgt He2 He1 Hl2 Hl1). lia.
Qed.

Lemma created_objects_disjoint_witness :
  let cs := [MakeEmptyTreeState; MakeStoreState 4; MakeStoreState 4] in
  9%nat ∉ created (snd (run cs initial))
             {| ev_call := MakeStoreState 4;
                ev_answer := Some (ARef 26);
                ev_version := None |}.
Proof.
  intros cs.
  apply (created_objects_disjoint cs initial 1 2
           {| ev_call := MakeStoreState 4;
              ev_answer := Some (ARef 15);
              ev_version := None |}
           {| ev_call := MakeStoreState 4;
              ev_answer := Some (ARef 26);
              ev_version := None |}
           9).
  - discriminate.
  - reflexivity.
  - reflexivity.
  - apply list_elem_of_In. vm_compute. tauto.
Defined.

(** X7.  [makeStoreState] does not consume its argument: for a tree state
    it returns, and a second call on the same tree state returns too; the
    two store states are different objects whose [currentTree] is the same
    tree state object; their graph maps are different Maps with the same
    single key, the version of that tree state, and two different graph
    objects. *)
Theorem makeStoreState_twice
  (r : Runtime) (t : nat) (ts : TreeState) :
  treeStateAt r t = Some ts ->
  exists (s1 s2 : nat) (r1 r2 : Runtime) (st1 st2 : StoreState)
         (g1 g2 : nat),
    makeStoreState t r = Ok s1 r1 /\
    makeStoreState t r1 = Ok s2 r2 /\
    s1 <> s2 /\
    storeStateAt r2 s1 = Some st1 /\
    storeStateAt r2 s2 = Some st2 /\
    currentTree st1 = t /\
    currentTree st2 = t /\
    treeStateAt r2 t = Some ts /\
    heap r2 !! graphsByVersion st1 = Some (CMap [(VNumber (version ts), VRef g1)]) /\
    heap r2 !! graphsByVersion st2 = Some (CMap [(VNumber (version ts), VRef g2)]) /\
    graphsByVersion st1 <> graphsByVersion st2 /\
    g1 <> g2.
Proof.
  intros Hts.
  pose proof (makeStoreState_run _ _ _ Hts) as H1. cbv zeta in H1.
  match type of H1 with
  | _ = Ok _ ?x => set (r1 := x) in *
  end.
  assert (extends r r1) as Hext by (unfold extends; cbn; by eexists).
  pose proof (extends_treeStateAt _ _ _ _ Hext Hts) as Hts1.
  pose proof (makeStoreState_run _ _ _ Hts1) as H2. cbv zeta in H2.
  match type of H2 with
  | _ = Ok _ ?x => set (r2 := x) in *
  end.
  assert (extends r1 r2) as Hext2 by (unfold extends; cbn; by eexists).
  eexists _, _, r1, r2, _, _, _, _. split; [exact H1 |].
  split; [exact H2 |].
  split; [subst r1; cbn [heap]; rewrite length_app; cbn [length]; lia |].
  split.
  { eapply extends_storeStateAt; [exact Hext2 |].
    subst r1. unfold storeStateAt. cbn [heap]. by rewrite lookup_fresh. }
  split; [subst r2; unfold storeStateAt; cbn [heap]; by rewrite lookup_fresh |].
  cbn [currentTree graphsByVersion].
  split; [reflexivity |]. split; [reflexivity |].
  split; [by eapply extends_treeStateAt |].
  split.
  { eapply extends_lookup; [exact Hext2 |].
    subst r1. cbn [heap]. by rewrite lookup_fresh. }
  split; [subst r2; cbn [heap]; by rewrite lookup_fresh |].
  subst r1. cbn [heap]. rewrite length_app. cbn [length]. lia.
Qed.

Lemma makeStoreState_twice_witness :
  let r := after (makeEmptyTreeState initial) in
  exists (s1 s2 : nat) (r1 r2 : Runtime) (st1 st2 : StoreState)
         (g1 g2 : nat),
    makeStoreState 4 r = Ok s1 r1 /\
    makeStoreState 4 r1 = Ok s2 r2 /\
    s1 <> s2 /\
    storeStateAt r2 s1 = Some st1 /\
    storeStateAt r2 s2 = Some st2 /\
    currentTree st1 = 4%nat /\
    currentTree st2 = 4%nat /\
    treeStateAt r2 4 = Some (mkTreeState 0 0 1 2 3) /\
    heap r2 !! graphsByVersion st1 = Some (CMap [(VNumber 0, VRef g1)]) /\
    heap r2 !! graphsByVersion st2 = Some (CMap [(VNumber 0, VRef g2)]) /\
    graphsByVersion st1 <> graphsByVersion st2 /\
    g1 <> g2.
Proof.
  intros r. apply (makeStoreState_twice r 4 (mkTreeState 0 0 1 2 3)).
  reflexivity.
Defined.

(** X8.  The private counter records how many versions were issued: after
    any call sequence in a runtime that started at the origin, it equals the
    number of versions issued so far, capped at 2^53. *)
Theorem counter_counts_versions (cs : list call) (r : Runtime) :
  nextTreeStateVersion r = 0 ->
  nextTreeStateVersion (snd (run cs r))
  = Z.min (Z.of_nat (length (versions cs r))) Number.max_exact.
Proof.
  intros Hr. pose proof max_exact_pos as Hpos.
  rewrite run_counter by lia.
  assert (length (versions cs r) = allocations cs) as ->.
  { rewrite versions_closed_form by lia.
    by rewrite length_fmap, length_seq. }
  rewrite Hr. unfold counter_after. lia.
Qed.

Lemma counter_counts_versions_witness :
  nextTreeStateVersion
    (snd (run [MakeEmptyStoreState; MakeStoreState 4; MakeStoreState 77;
               GetNextTreeStateVersion; MakeEmptyTreeState] initial))
  = Z.min (Z.of_nat
             (length (versions [MakeEmptyStoreState; MakeStoreState 4;
                                MakeStoreState 77; GetNextTreeStateVersion;
                                MakeEmptyTreeState] initial)))
          Number.max_exact.
Proof.
  apply (counter_counts_versions
           [MakeEmptyStoreState; MakeStoreState 4; MakeStoreState 77;
            GetNextTreeStateVersion; MakeEmptyTreeState] initial).
  reflexivity.
Defined.
